(** * AsyncWorkers: the per-key, single-flight, cancel-and-coalesce scheduler

    Shallow embedding of [pkg/util/asyncworker/async_workers.go].

    Every exported operation of the scheduler takes [aws.workLock] on entry and
    releases it on return, so each one is a single atomic transition of the
    process state.  The operations are written in a small state monad whose
    results distinguish a normal return, a call to [general.Fatalf] (the process
    exits) and a Go panic (the stack unwinds to the nearest deferred recover).

    Calls to [general.InfoS] and [general.Errorf] only emit diagnostics; they
    are kept where evaluating their arguments dereferences a pointer that may
    be nil, and left out otherwise.

    The work function of a goroutine runs outside the lock: its return (or
    panic) and the [completeWork] that follows are separate transitions, and
    submissions and reaper ticks may come in between. *)

From Stdlib Require Import ZArith.
From stdpp Require Import base option list gmap strings fin_maps.



(** ** Go values *)

(** A non-nil [error], identified by its message; [option error] is Go's
    [error] with [None] for [nil]. *)
Abbreviation error := string (only parsing).

(** [time.Time]; [zeroTime] is [time.Time{}]. *)
Abbreviation Time := Z (only parsing).
Definition zeroTime : Time := 0%Z.

(** A [context.Context] made by [context.WithCancel(context.Background())] is
    identified by the address of its cancelCtx object; the [CancelFunc]
    returned with it is identified by the context it cancels. *)
Abbreviation Context := nat (only parsing).
Abbreviation CancelFunc := nat (only parsing).

(** The elements of [Params ...interface{}]. *)
Inductive Param : Type :=
| PInt (z : Z)
| PStr (s : string).

(** What one call of a work function does: it returns an [error] (possibly
    [nil]) or it panics with a value. *)
Inductive FnResult : Type :=
| Returns (err : option error)
| Panics (v : string).

(** Modelled from the spec: [Work] is declared in another file of the
    package.  A work carries an executable function (null when missing), its
    positional arguments and a submission timestamp.  The function receives
    its cancellation-aware context, observed through [ctx.Err() != nil], and
    the stored arguments. *)
Record Work : Type := {
  Fn : option (bool -> list Param -> FnResult);
  Params : list Param;
  DeliveredAt : Time;
}.

(** Modelled from the spec: [workStatus] is declared in another file of the
    package.  Fields as used by the scheduler: the cancellable context
    (nil until first dispatch), its cancel function, the working flag, the work
    presently executing and its start time. *)
Record workStatus : Type := {
  ctx : option Context;
  cancelFn : option CancelFunc;
  working : bool;
  work : option Work;
  startedAt : Time;
}.

(** [&workStatus{}] *)
Definition emptyStatus : workStatus :=
  {| ctx := None; cancelFn := None; working := false; work := None;
     startedAt := zeroTime |}.

(** Modelled from the spec: [IsWorking] is declared with [workStatus] in
    another file of the package; it reads the working flag. *)
Definition IsWorking (status : workStatus) : bool := working status.

(** Modelled from the spec: [AsyncWorkers] is declared in another file of the
    package.  Both tables hold pointers, [None] standing for a nil
    pointer stored under a key.  A [*workStatus] is reachable only through the
    table entry of its key, so the entry holds the record itself.  The lock
    [workLock] is the atomicity of the operations below. *)
Record AsyncWorkers : Type := {
  name : string;
  lastUndeliveredWork : gmap string (option Work);
  workStatuses : gmap string (option workStatus);
}.

(** [NewAsyncWorkers] *)
Definition NewAsyncWorkers (nm : string) : AsyncWorkers :=
  {| name := nm; lastUndeliveredWork := ∅; workStatuses := ∅ |}.

(** ** The process around the scheduler *)

(** A goroutine started by [go func() { defer runtime.HandleCrash();
    aws.handleWork(ctx, workName, work) }()]: the variables its closure
    captured, and the local [err] of [handleWork], which is [None] while the
    work function has not returned and holds what it returned from then until
    [completeWork] has run. *)
Record goroutine : Type := {
  g_ctx : Context;
  g_workName : string;
  g_work : option Work;
  g_err : option (option error);
}.

(** The state of the process: the scheduler, the heap of cancelCtx objects
    (each with its canceled flag) and the goroutines that were started and
    have not finished. *)
Record Runtime : Type := {
  aws : AsyncWorkers;
  contexts : gmap Context bool;
  goroutines : list goroutine;
}.

Definition NewRuntime (nm : string) : Runtime :=
  {| aws := NewAsyncWorkers nm; contexts := ∅; goroutines := [] |}.

(** [ctx.Err() == context.Canceled] *)
Definition ctxCanceled (h : gmap Context bool) (c : Context) : bool :=
  match h !! c with
  | Some true => true
  | _ => false
  end.

Definition set_lastUndeliveredWork
    (f : gmap string (option Work) -> gmap string (option Work))
    (rt : Runtime) : Runtime :=
  {| aws := {| name := name (aws rt);
               lastUndeliveredWork := f (lastUndeliveredWork (aws rt));
               workStatuses := workStatuses (aws rt) |};
     contexts := contexts rt;
     goroutines := goroutines rt |}.

Definition set_workStatuses
    (f : gmap string (option workStatus) -> gmap string (option workStatus))
    (rt : Runtime) : Runtime :=
  {| aws := {| name := name (aws rt);
               lastUndeliveredWork := lastUndeliveredWork (aws rt);
               workStatuses := f (workStatuses (aws rt)) |};
     contexts := contexts rt;
     goroutines := goroutines rt |}.

Definition set_contexts (f : gmap Context bool -> gmap Context bool)
    (rt : Runtime) : Runtime :=
  {| aws := aws rt; contexts := f (contexts rt); goroutines := goroutines rt |}.

Definition set_goroutines (f : list goroutine -> list goroutine)
    (rt : Runtime) : Runtime :=
  {| aws := aws rt; contexts := contexts rt; goroutines := f (goroutines rt) |}.

(** ** The monad of scheduler operations *)

Inductive Outcome (A : Type) : Type :=
| Ret (a : A) (rt : Runtime)          (* the call returned *)
| Fatal (msg : string) (rt : Runtime) (* general.Fatalf: the process exits *)
| Panic (v : string) (rt : Runtime).  (* a panic is unwinding the stack *)
Arguments Ret {A} a rt.
Arguments Fatal {A} msg rt.
Arguments Panic {A} v rt.

Definition M (A : Type) : Type := Runtime -> Outcome A.

Definition ret {A} (a : A) : M A := λ rt, Ret a rt.

Definition bind {A B} (m : M A) (k : A -> M B) : M B :=
  λ rt, match m rt with
        | Ret a rt' => k a rt'
        | Fatal msg rt' => Fatal msg rt'
        | Panic v rt' => Panic v rt'
        end.

Notation "'do' x <- m ; k" := (bind m (λ x, k))
  (at level 10, x name, m at level 100, k at level 200,
   format "'[v' 'do'  x  <-  m ; '/' k ']'").
Notation "'run' m ; k" := (bind m (λ _, k))
  (at level 10, m at level 100, k at level 200,
   format "'[v' 'run'  m ; '/' k ']'").

(** Modelled from the spec: [general.Fatalf] is declared in another package of
    the repository.  It is a fatal abort: the process exits and the call does
    not return. *)
Definition Fatalf {A} (msg : string) : M A := λ rt, Fatal msg rt.

(** A Go panic. *)
Definition panic {A} (v : string) : M A := λ rt, Panic v rt.
Definition get : M Runtime := λ rt, Ret rt rt.
Definition modify (f : Runtime -> Runtime) : M unit := λ rt, Ret tt (f rt).

(** Reading a field through a [*Work]: a nil pointer panics. *)
Definition deref (wk : option Work) : M Work :=
  match wk with
  | Some w => ret w
  | None => panic "invalid memory address or nil pointer dereference"
  end.

(** [context.WithCancel(context.Background())]: a new cancelCtx object, not
    canceled, and the function that cancels it. *)
Definition WithCancel : M (Context * option CancelFunc) :=
  do rt <- get;
  let c := fresh (dom (contexts rt)) in
  run modify (set_contexts (λ h, <[c := false]> h));
  ret (c, Some c).

(** Calling a [CancelFunc]. *)
Definition cancel (c : CancelFunc) : M unit :=
  modify (set_contexts (λ h, <[c := true]> h)).

(** The [go] statement. *)
Definition go (g : goroutine) : M unit :=
  modify (set_goroutines (λ l, (l ++ [g])%list)).

(** ** The scheduler *)

(** Modelled from the spec: [validateWork] is declared in another file of the
    package.  A work must carry a non-null executable function, else
    validation fails. *)
Definition validateWork (wk : option Work) : option error :=
  match wk with
  | None => Some "nil work"
  | Some w =>
      match Fn w with
      | None => Some "nil work Fn"
      | Some _ => None
      end
  end.

Definition fatalPrefix (rt : Runtime) : string :=
  "[AsyncWorkers: " +:+ name (aws rt) +:+ "] ".

(** [contextForWork] returns or initializes the context of a known work and
    points [status.work] to the work; a canceled context is reset. *)
Definition contextForWork (now : Time) (workName : string)
    (wk : option Work) : M Context :=
  do rt <- get;
  match wk with
  | None =>
      Fatalf (fatalPrefix rt +:+ "contextForWork: " +:+ workName
              +:+ " got nil work")
  | Some _ =>
      match workStatuses (aws rt) !! workName with
      | Some (Some status) =>
          do cc <- match ctx status with
                   | None => WithCancel
                   | Some c =>
                       if ctxCanceled (contexts rt) c then WithCancel
                       else ret (c, cancelFn status)
                   end;
          run modify (set_workStatuses (λ m,
                <[workName := Some {| ctx := Some cc.1; cancelFn := cc.2;
                                      working := true; work := wk;
                                      startedAt := now |}]> m));
          ret cc.1
      | _ =>
          Fatalf (fatalPrefix rt +:+ "contextForWork: " +:+ workName
                  +:+ " got no status")
      end
  end.

(** [resetWorkStatus] resets the status of [workName] when there is no work
    of that name to do. *)
Definition resetWorkStatus (workName : string) : M unit :=
  do rt <- get;
  match workStatuses (aws rt) !! workName with
  | Some (Some status) =>
      modify (set_workStatuses (λ m,
        <[workName := Some {| ctx := ctx status; cancelFn := cancelFn status;
                              working := false; work := None;
                              startedAt := zeroTime |}]> m))
  | _ =>
      Fatalf (fatalPrefix rt +:+ "contextForWork: " +:+ workName
              +:+ " got no status")
  end.

(** [completeWork]; [workErr] is only logged. *)
Definition completeWork (now : Time) (workName : string)
    (completedWork : option Work) (workErr : option error) : M unit :=
  (* the log of "complete work" reads completedWork.Params *)
  run deref completedWork;
  do rt <- get;
  match lastUndeliveredWork (aws rt) !! workName with
  | Some wk =>
      do c <- contextForWork now workName wk;
      run go {| g_ctx := c; g_workName := workName; g_work := wk;
                g_err := None |};
      modify (set_lastUndeliveredWork (λ m, delete workName m))
  | None => resetWorkStatus workName
  end.

(** [err := work.Fn(ctx, work.Params...)], the first statement of
    [handleWork]; it runs without the lock. *)
Definition callFn (c : Context) (wk : option Work) : M (option error) :=
  do w <- deref wk;
  do rt <- get;
  match Fn w with
  | None => panic "invalid memory address or nil pointer dereference"
  | Some f =>
      match f (ctxCanceled (contexts rt) c) (Params w) with
      | Panics v => panic v
      | Returns err => ret err
      end
  end.

(** [handleWork] calls the work function with the goroutine's context and then
    [completeWork] with what the function returned.  Nothing is deferred here:
    a panic of the function leaves [handleWork] before [completeWork]. *)
Definition handleWork (now : Time) (c : Context) (workName : string)
    (wk : option Work) : M (option error) :=
  do err <- callFn c wk;
  run completeWork now workName wk err;
  ret None.

(** [AddWork] *)
Definition AddWork (now : Time) (workName : string) (wk : option Work)
    : M (option error) :=
  match validateWork wk with
  | Some err =>
      ret (Some ("validateWork for: " +:+ workName
                 +:+ " failed with error: " +:+ err))
  | None =>
      (* the log of "add work" reads work.Params *)
      run deref wk;
      do rt <- get;
      do status <- match workStatuses (aws rt) !! workName with
                   | Some (Some status) => ret status
                   | _ =>
                       run modify (set_workStatuses (λ m,
                             <[workName := Some emptyStatus]> m));
                       ret emptyStatus
                   end;
      if negb (IsWorking status) then
        do c <- contextForWork now workName wk;
        run go {| g_ctx := c; g_workName := workName; g_work := wk;
                  g_err := None |};
        ret None
      else
        (* the log of "overwrite undelivered work" reads undelivered.Params *)
        run match lastUndeliveredWork (aws rt) !! workName with
            | Some undelivered => run deref undelivered; ret tt
            | None => ret tt
            end;
        (* always set the most recent work *)
        run modify (set_lastUndeliveredWork (λ m, <[workName := wk]> m));
        match cancelFn status, work status with
        | None, _ =>
            Fatalf (fatalPrefix rt +:+ workName
                    +:+ " nil cancelFn in working status")
        | Some _, None =>
            Fatalf (fatalPrefix rt +:+ workName
                    +:+ " nil work in working status")
        | Some cancelF, Some _ =>
            run cancel cancelF;
            ret None
        end
  end.

(** The loop body of [cleanupWorkStatus] for one table entry. *)
Definition cleanupEntry (workName : string) (status : option workStatus)
    (m : gmap string (option workStatus)) : gmap string (option workStatus) :=
  match status with
  | None => delete workName m
  | Some st => if negb (working st) then delete workName m else m
  end.

(** [cleanupWorkStatus] cleans up the statuses that are not working: a range
    over the table that deletes from it. *)
Definition cleanupWorkStatus : M unit :=
  modify (set_workStatuses (λ m, map_fold cleanupEntry m m)).

(** [runtime.HandleCrash] of k8s.io/apimachinery, run as the goroutine's
    deferred call while a panic unwinds: it recovers the panic, logs it, and
    panics again when the package variable [ReallyCrash] is set, which is its
    default. *)
Definition HandleCrash (ReallyCrash : bool) (r : string) : M unit :=
  if ReallyCrash then panic r else ret tt.

(** The body of a started goroutine, run with nothing in between:
    [defer runtime.HandleCrash(); aws.handleWork(ctx, workName, work)]. *)
Definition goroutineBody (ReallyCrash : bool) (now : Time) (g : goroutine)
    : M unit :=
  λ rt, match handleWork now (g_ctx g) (g_workName g) (g_work g) rt with
        | Ret _ rt' => Ret tt rt'
        | Fatal msg rt' => Fatal msg rt'
        | Panic r rt' => HandleCrash ReallyCrash r rt'
        end.

(** The [i]-th live goroutine, [g], runs the call of its work function.  When
    the function returns, the goroutine holds the result and waits for the
    lock of [completeWork].  When it panics, the goroutine unwinds through
    [handleWork] into its deferred [runtime.HandleCrash] and is gone.  A work
    function that ends its goroutine with [runtime.Goexit] is not among the
    results of [FnResult]: the goroutine is then gone without [completeWork]
    whatever [ReallyCrash] is, which is the state a panic leaves when
    [ReallyCrash] is unset. *)
Definition runCall (ReallyCrash : bool) (i : nat) (g : goroutine) : M unit :=
  λ rt, match callFn (g_ctx g) (g_work g) rt with
        | Ret err rt' =>
            Ret tt (set_goroutines (λ l,
              <[i := {| g_ctx := g_ctx g; g_workName := g_workName g;
                        g_work := g_work g; g_err := Some err |}]> l) rt')
        | Fatal msg rt' => Fatal msg rt'
        | Panic r rt' =>
            HandleCrash ReallyCrash r (set_goroutines (delete i) rt')
        end.

(** The [i]-th live goroutine, [g], whose work function returned [err], runs
    [completeWork] and ends; a panic in there unwinds into the deferred
    [runtime.HandleCrash] as well. *)
Definition runComplete (ReallyCrash : bool) (now : Time) (i : nat)
    (g : goroutine) (err : option error) : M unit :=
  λ rt, match completeWork now (g_workName g) (g_work g) err
                (set_goroutines (delete i) rt) with
        | Ret _ rt' => Ret tt rt'
        | Fatal msg rt' => Fatal msg rt'
        | Panic r rt' => HandleCrash ReallyCrash r rt'
        end.

(** ** Observations on a state *)

(** The status a key has in the table, if the entry exists and is not nil. *)
Definition statusOf (rt : Runtime) (workName : string) : option workStatus :=
  match workStatuses (aws rt) !! workName with
  | Some (Some status) => Some status
  | _ => None
  end.

(** The key has a status and that status is working. *)
Definition isWorking (rt : Runtime) (workName : string) : bool :=
  match statusOf rt workName with
  | Some status => IsWorking status
  | None => false
  end.

(** [contextForWork] takes its allocating branch:
    [status.ctx == nil || status.ctx.Err() == context.Canceled]. *)
Definition needsNewContext (rt : Runtime) (status : workStatus) : bool :=
  match ctx status with
  | None => true
  | Some c => ctxCanceled (contexts rt) c
  end.

(** The status [AddWork] dispatches on for a key that is not working: the one
    in the table, or the one it has just created. *)
Definition statusForDispatch (rt : Runtime) (workName : string) : workStatus :=
  match statusOf rt workName with
  | Some status => status
  | None => emptyStatus
  end.

(** The number of started, unfinished executions of a key's work. *)
Definition inflight (workName : string) (l : list goroutine) : nat :=
  length (filter (λ g, g_workName g = workName) l).

(** ** The transitions of the process *)

(** What can happen next: a caller submits work; the work function of a
    started goroutine returns or panics, outside the lock; a goroutine whose
    function returned runs [completeWork]; or the reaper started by [Start]
    ticks ([wait.Until(aws.cleanupWorkStatus, 10*time.Second, stopCh)]).
    [now] is what [time.Now()] reads during the transition and [ReallyCrash]
    the value of the k8s package variable. *)
Inductive event : Type :=
| EvAddWork (now : Time) (workName : string) (wk : option Work)
| EvCall (ReallyCrash : bool) (i : nat)
| EvComplete (ReallyCrash : bool) (now : Time) (i : nat)
| EvReaper.

(** A goroutine counts as an execution in flight from its start until its
    [completeWork] has run; the replacement that [completeWork] starts follows
    it at once.  A transition that ends in [Fatal] or in an unrecovered
    [Panic] ends the process and is not a step. *)
Inductive step : event -> Runtime -> Runtime -> Prop :=
| step_AddWork now workName wk err rt rt' :
    AddWork now workName wk rt = Ret err rt' ->
    step (EvAddWork now workName wk) rt rt'
| step_call ReallyCrash i g rt rt' :
    goroutines rt !! i = Some g ->
    g_err g = None ->
    runCall ReallyCrash i g rt = Ret tt rt' ->
    step (EvCall ReallyCrash i) rt rt'
| step_complete ReallyCrash now i g err rt rt' :
    goroutines rt !! i = Some g ->
    g_err g = Some err ->
    runComplete ReallyCrash now i g err rt = Ret tt rt' ->
    step (EvComplete ReallyCrash now i) rt rt'
| step_reaper rt rt' :
    cleanupWorkStatus rt = Ret tt rt' ->
    step EvReaper rt rt'.

Inductive reachable : Runtime -> Prop :=
| reachable_new nm : reachable (NewRuntime nm)
| reachable_step ev rt rt' :
    reachable rt -> step ev rt rt' -> reachable rt'.

(** The states a run of the process can get to from a given one. *)
Inductive runsTo (rt : Runtime) : Runtime -> Prop :=
| runsTo_here : runsTo rt rt
| runsTo_step ev rt1 rt2 :
    runsTo rt rt1 -> step ev rt1 rt2 -> runsTo rt rt2.

(** ** Invariants *)

(** A key is stuck when it is marked working and none of its work is
    executing. *)
Definition stuck (workName : string) (rt : Runtime) : Prop :=
  isWorking rt workName = true ∧ inflight workName (goroutines rt) = 0.

(** Whenever the pending-replacement table holds an entry for a key, the key
    has a status and is working. *)
Definition pendingImpliesWorking (rt : Runtime) : Prop :=
  ∀ workName wk,
    lastUndeliveredWork (aws rt) !! workName = Some wk ->
    isWorking rt workName = true.

(** A working status has its cancel function and its current work. *)
Definition workingHasCancelAndWork (rt : Runtime) : Prop :=
  ∀ workName status,
    statusOf rt workName = Some status ->
    working status = true ->
    is_Some (cancelFn status) ∧ is_Some (work status).

(** The facts that hold together in every state the process can reach. *)
Record consistent (rt : Runtime) : Prop := {
  cons_single : ∀ workName, (inflight workName (goroutines rt) ≤ 1)%nat;
  cons_running : ∀ g, g ∈ goroutines rt ->
    ∃ status, statusOf rt (g_workName g) = Some status ∧
              working status = true ∧
              ctx status = Some (g_ctx g) ∧
              validateWork (g_work g) = None;
  cons_status : ∀ workName status,
    statusOf rt workName = Some status ->
    cancelFn status = ctx status ∧
    (working status = true -> is_Some (ctx status) ∧ is_Some (work status));
  cons_pending : ∀ workName wk,
    lastUndeliveredWork (aws rt) !! workName = Some wk ->
    isWorking rt workName = true ∧ validateWork wk = None;
}.

(** ** Sample works and states *)

Definition rtOf {A} (o : Outcome A) : Runtime :=
  match o with
  | Ret _ rt | Fatal _ rt | Panic _ rt => rt
  end.

Definition W1 : Work :=
  {| Fn := Some (λ _ _, Returns None); Params := [PStr "podA"];
     DeliveredAt := 1 |}.

Definition W2 : Work :=
  {| Fn := Some (λ (canceled : bool) _,
                   if canceled then Returns (Some "context canceled")
                   else Returns None);
     Params := [PStr "podA"; PInt 2]; DeliveredAt := 2 |}.

Definition W3 : Work :=
  {| Fn := Some (λ _ _, Returns (Some "sync failed")); Params := [];
     DeliveredAt := 3 |}.

Definition Wpanic : Work :=
  {| Fn := Some (λ _ _, Panics "index out of range"); Params := [];
     DeliveredAt := 4 |}.

Definition Wnil : Work :=
  {| Fn := None; Params := [PInt 0]; DeliveredAt := 5 |}.

(** [AddWork("podA", W1)] on a new scheduler: W1 is executing. *)
Definition rtBusy : Runtime :=
  rtOf (AddWork 10 "podA" (Some W1) (NewRuntime "aws")).

(** Then [AddWork("podA", W2)]: W2 is pending, W1's context is canceled. *)
Definition rtQueued : Runtime :=
  rtOf (AddWork 11 "podA" (Some W2) rtBusy).

(** W1's goroutine runs to its end: W2 is executing. *)
Definition rtChained : Runtime :=
  rtOf (goroutineBody true 12
          {| g_ctx := 0; g_workName := "podA"; g_work := Some W1;
             g_err := None |}
          (set_goroutines (delete 0) rtQueued)).

(** W2's goroutine runs to its end with nothing pending: the key is idle. *)
Definition rtIdle : Runtime :=
  rtOf (goroutineBody true 13
          {| g_ctx := 1; g_workName := "podA"; g_work := Some W2;
             g_err := None |}
          (set_goroutines (delete 0) rtChained)).

(** The reaper ticks. *)
Definition rtReaped : Runtime := rtOf (cleanupWorkStatus rtIdle).

(** [AddWork("podA", Wpanic)] on a new scheduler: Wpanic is executing. *)
Definition rtPanic : Runtime :=
  rtOf (AddWork 10 "podA" (Some Wpanic) (NewRuntime "aws")).

(** The goroutine [AddWork] started for Wpanic, and the state in which it
    runs to its end. *)
Definition gPanic : goroutine :=
  {| g_ctx := 0; g_workName := "podA"; g_work := Some Wpanic; g_err := None |}.

Definition rtPanicRunning : Runtime := set_goroutines (delete 0) rtPanic.


(** The state after [n] passes of the reaper. *)
Definition reaperPasses (n : nat) (rt : Runtime) : Runtime :=
  Nat.iter n (λ r, rtOf (cleanupWorkStatus r)) rt.

(** A state no run produces: "podA" is marked working with no cancel function
    and no current work. *)
Definition rtBroken : Runtime :=
  set_workStatuses (λ m,
    <["podA" := Some {| ctx := None; cancelFn := None; working := true;
                         work := None; startedAt := 7 |}]> m)
    (NewRuntime "aws").

(** ** The effect of a step, state by state *)

(** The state a valid submission for a working key leaves: the work in the
    key's pending slot and the context of the key's cancel function
    canceled. *)
Definition queued (workName : string) (w : Work) (c : CancelFunc)
    (rt : Runtime) : Runtime :=
  {| aws := {| name := name (aws rt);
               lastUndeliveredWork :=
                 <[workName := Some w]> (lastUndeliveredWork (aws rt));
               workStatuses := workStatuses (aws rt) |};
     contexts := <[c := true]> (contexts rt);
     goroutines := goroutines rt |}.

(** The state a dispatch leaves: the key's status is working on the work with
    context [c], the context heap is [h'], the pending table is [pend], and a
    goroutine for the work has been started. *)
Definition dispatched (now : Time) (workName : string) (w : Work)
    (c : Context) (h' : gmap Context bool)
    (pend : gmap string (option Work)) (rt : Runtime) : Runtime :=
  {| aws := {| name := name (aws rt);
               lastUndeliveredWork := pend;
               workStatuses :=
                 <[workName := Some {| ctx := Some c; cancelFn := Some c;
                                       working := true; work := Some w;
                                       startedAt := now |}]>
                   (workStatuses (aws rt)) |};
     contexts := h';
     goroutines := goroutines rt ++
       [{| g_ctx := c; g_workName := workName; g_work := Some w;
           g_err := None |}] |}.

(** The state [resetWorkStatus] leaves for a key whose status was
    [status]. *)
Definition idled (workName : string) (status : workStatus) (rt : Runtime)
    : Runtime :=
  {| aws := {| name := name (aws rt);
               lastUndeliveredWork := lastUndeliveredWork (aws rt);
               workStatuses :=
                 <[workName := Some {| ctx := ctx status;
                                       cancelFn := cancelFn status;
                                       working := false; work := None;
                                       startedAt := zeroTime |}]>
                   (workStatuses (aws rt)) |};
     contexts := contexts rt;
     goroutines := goroutines rt |}.

(** The context [contextForWork] hands out for a status, and the context heap
    it leaves: a new context, or the status's own, which is not canceled. *)
Definition contextChoice (rt : Runtime) (status : workStatus) (c : Context)
    (h' : gmap Context bool) : Prop :=
  (needsNewContext rt status = true ∧ c = fresh (dom (contexts rt)) ∧
   h' = <[c := false]> (contexts rt)) ∨
  (needsNewContext rt status = false ∧ ctx status = Some c ∧
   h' = contexts rt).

(** What a step does to a consistent state, case by case: a submission is
    rejected, queued or started; a work function returns or crashes its
    goroutine; a completion starts the pending replacement or leaves the key
    idle; the reaper sweeps the status table. *)
Inductive effect : event -> Runtime -> Runtime -> Prop :=
| eff_rejected now workName wk rt :
    validateWork wk ≠ None ->
    effect (EvAddWork now workName wk) rt rt
| eff_queued now workName w status c rt :
    validateWork (Some w) = None ->
    statusOf rt workName = Some status ->
    working status = true ->
    ctx status = Some c ->
    cancelFn status = Some c ->
    effect (EvAddWork now workName (Some w)) rt (queued workName w c rt)
| eff_started now workName w c h' rt :
    validateWork (Some w) = None ->
    isWorking rt workName = false ->
    contextChoice rt (statusForDispatch rt workName) c h' ->
    effect (EvAddWork now workName (Some w)) rt
      (dispatched now workName w c h' (lastUndeliveredWork (aws rt)) rt)
| eff_returned ReallyCrash i g err rt :
    goroutines rt !! i = Some g ->
    g_err g = None ->
    effect (EvCall ReallyCrash i) rt
      (set_goroutines (λ l,
         <[i := {| g_ctx := g_ctx g; g_workName := g_workName g;
                   g_work := g_work g; g_err := Some err |}]> l) rt)
| eff_crashed i g rt :
    goroutines rt !! i = Some g ->
    g_err g = None ->
    effect (EvCall false i) rt (set_goroutines (delete i) rt)
| eff_replaced ReallyCrash now i g status w c h' rt :
    goroutines rt !! i = Some g ->
    statusOf rt (g_workName g) = Some status ->
    working status = true ->
    lastUndeliveredWork (aws rt) !! g_workName g = Some (Some w) ->
    validateWork (Some w) = None ->
    contextChoice rt status c h' ->
    effect (EvComplete ReallyCrash now i) rt
      (dispatched now (g_workName g) w c h'
         (delete (g_workName g) (lastUndeliveredWork (aws rt)))
         (set_goroutines (delete i) rt))
| eff_finished ReallyCrash now i g status rt :
    goroutines rt !! i = Some g ->
    statusOf rt (g_workName g) = Some status ->
    working status = true ->
    lastUndeliveredWork (aws rt) !! g_workName g = None ->
    effect (EvComplete ReallyCrash now i) rt
      (idled (g_workName g) status (set_goroutines (delete i) rt))
| eff_reaped rt :
    effect EvReaper rt
      (set_workStatuses (λ m, map_fold cleanupEntry m m) rt).

(** Each status owns its context: the context is allocated, no other key's
    status holds it, and the context of a live goroutine is canceled exactly
    when a replacement is pending for the goroutine's key. *)
Record ownedContexts (rt : Runtime) : Prop := {
  own_allocated : ∀ workName status c,
    statusOf rt workName = Some status -> ctx status = Some c ->
    is_Some (contexts rt !! c);
  own_distinct : ∀ k1 k2 st1 st2 c,
    statusOf rt k1 = Some st1 -> statusOf rt k2 = Some st2 ->
    ctx st1 = Some c -> ctx st2 = Some c -> k1 = k2;
  own_canceled : ∀ g, g ∈ goroutines rt ->
    (ctxCanceled (contexts rt) (g_ctx g) = true <->
     is_Some (lastUndeliveredWork (aws rt) !! g_workName g));
}.

(** The key a step works for: the key of the submission or of the goroutine
    that takes the step; the reaper works for none. *)
Definition keyOf (ev : event) (rt : Runtime) : option string :=
  match ev with
  | EvAddWork _ workName _ => Some workName
  | EvCall _ i => g_workName <$> goroutines rt !! i
  | EvComplete _ _ i => g_workName <$> goroutines rt !! i
  | EvReaper => None
  end.

(** The live goroutines of a key. *)
Definition goroutinesOf (workName : string) (rt : Runtime) : list goroutine :=
  filter (λ g, g_workName g = workName) (goroutines rt).

(** Submitting the works of a list for one key, one [AddWork] call after the
    other. *)
Definition submitAll (now : Time) (workName : string) (ws : list Work)
    (rt : Runtime) : Runtime :=
  foldl (λ r w, rtOf (AddWork now workName (Some w) r)) rt ws.

(** ** CPU assignments ([package machine])

    The conversions between the two formats of a CPU assignment, a map from
    NUMA node to CPU set.  A Go map is [None] when it is nil.  A [range] over a
    map visits its entries in an order the language does not fix, so each loop
    is a function of the order in which the entries are visited. *)

(** The value a 64-bit [int] holds for the mathematical result [z]. *)
Definition wrapInt (z : Z) : Z := ((z + 2 ^ 63) mod 2 ^ 64 - 2 ^ 63)%Z.

(** [int(k)] for a [uint64] and [uint64(id)] for an [int]. *)
Definition toInt (k : Z) : Z := wrapInt k.
Definition toUint64 (id : Z) : Z := (id mod 2 ^ 64)%Z.

Definition isInt (z : Z) : Prop := (- 2 ^ 63 ≤ z < 2 ^ 63)%Z.
Definition isUint64 (z : Z) : Prop := (0 ≤ z < 2 ^ 64)%Z.

(** The entries a [range] over a map visits, in one of the possible orders;
    a nil map has none. *)
Definition rangeOver {K : Type} `{Countable K} {V : Type}
    (m : option (gmap K V)) : list (K * V) :=
  match m with
  | None => []
  | Some m => map_to_list m
  end.

Definition sumZ (l : list Z) : Z := foldr Z.add 0%Z l.

Section CPUAssignmentCode.
(** [CPUSet] and its methods are declared in another file of the package;
    they are parameters here.  [MustParse] panics on a string that is not a
    CPU set: [None]. *)
Context {CPUSet : Type}.
Variable MustParse : string -> option CPUSet.
Variable cpusetString : CPUSet -> string.
Variable Size : CPUSet -> Z.
Variable Clone : CPUSet -> CPUSet.

(** The loop of [TransformCPUAssignmentFormat]:
    [res[int(k)] = MustParse(v)]; [None] once [MustParse] has panicked. *)
Definition transformLoop (order : list (Z * string))
    (res : option (gmap Z CPUSet)) : option (gmap Z CPUSet) :=
  foldl (λ res kv,
           match res with
           | None => None
           | Some res =>
               match MustParse kv.2 with
               | None => None
               | Some cset => Some (<[toInt kv.1 := cset]> res)
               end
           end) res order.

(** [TransformCPUAssignmentFormat] transforms the string format of a cpu
    assignment to the cpuset format; [None] is a panic, the map it returns is
    never nil. *)
Definition TransformCPUAssignmentFormat (assignment : option (gmap Z string))
    : option (gmap Z CPUSet) :=
  transformLoop (rangeOver assignment) (Some ∅).

(** The loop of [ParseCPUAssignmentFormat]:
    [res[uint64(id)] = cset.String()]. *)
Definition parseLoop (order : list (Z * CPUSet)) (res : gmap Z string)
    : gmap Z string :=
  foldl (λ res kv, <[toUint64 kv.1 := cpusetString kv.2]> res) res order.

(** [ParseCPUAssignmentFormat] parses the assignments into the string
    format; nil for nil. *)
Definition ParseCPUAssignmentFormat (assignments : option (gmap Z CPUSet))
    : option (gmap Z string) :=
  match assignments with
  | None => None
  | Some _ => Some (parseLoop (rangeOver assignments) ∅)
  end.

(** The loop of [CountCPUAssignmentCPUs]: [res += v.Size()]. *)
Definition countLoop (order : list (Z * CPUSet)) (res : Z) : Z :=
  foldl (λ res kv, wrapInt (res + Size kv.2)) res order.

(** [CountCPUAssignmentCPUs] returns the sum of the cpus among all numas of
    the assignment. *)
Definition CountCPUAssignmentCPUs (assignment : option (gmap Z CPUSet)) : Z :=
  countLoop (rangeOver assignment) 0%Z.

(** The loop of [GetQuantityMap]: [ret[name] = cset.Size()]. *)
Definition quantityLoop (order : list (string * CPUSet))
    (ret : gmap string Z) : gmap string Z :=
  foldl (λ ret kv, <[kv.1 := Size kv.2]> ret) ret order.

(** [GetQuantityMap] generates the cpu resource counting map of a CPUSet
    map; the map it returns is never nil. *)
Definition GetQuantityMap (csetMap : option (gmap string CPUSet))
    : gmap string Z :=
  quantityLoop (rangeOver csetMap) ∅.

(** The loop of [DeepcopyCPUAssignment]: [copied[numaNode] = cset.Clone()]. *)
Definition deepcopyLoop (order : list (Z * CPUSet)) (copied : gmap Z CPUSet)
    : gmap Z CPUSet :=
  foldl (λ copied kv, <[kv.1 := Clone kv.2]> copied) copied order.

(** [DeepcopyCPUAssignment] returns a deep copy of the assignment; nil for
    nil. *)
Definition DeepcopyCPUAssignment (assignment : option (gmap Z CPUSet))
    : option (gmap Z CPUSet) :=
  match assignment with
  | None => None
  | Some _ => Some (deepcopyLoop (rangeOver assignment) ∅)
  end.

End CPUAssignmentCode.

(** [MaskToUInt64Array] transforms a bit mask to a slice of [uint64], given
    the slice that [mask.GetBits()] returns:
    [maskBitsUint64 = append(maskBitsUint64, uint64(numaNode))]. *)
Definition MaskToUInt64Array (maskBits : list Z) : list Z :=
  foldl (λ maskBitsUint64 numaNode, maskBitsUint64 ++ [toUint64 numaNode])
    [] maskBits.

(** Sample assignments, with CPU sets as lists of CPU numbers: the sets
    "0-1" and "2". *)
Definition sampleParse (s : string) : option (list nat) :=
  if decide (s = "0-1") then Some [0; 1]
  else if decide (s = "2") then Some [2]
  else None.

Definition sampleString (c : list nat) : string :=
  if decide (c = [0; 1]) then "0-1" else "2".

Definition sampleSize (c : list nat) : Z := Z.of_nat (length c).

Definition sampleAssignment : gmap Z string :=
  <[0%Z := "0-1"]> (<[(2 ^ 64 - 1)%Z := "2"]> ∅).

Definition sampleCPUSets : gmap Z (list nat) :=
  <[0%Z := [0; 1]]> (<[1%Z := [2]]> ∅).

(** ** What each operation computes *)

Section Operations.
Implicit Types (rt : Runtime) (workName : string) (w : Work).

Lemma contextForWork_spec now workName w rt status :
  workStatuses (aws rt) !! workName = Some (Some status) ->
  ∃ c cf h',
    contextForWork now workName (Some w) rt =
      Ret c {| aws := {| name := name (aws rt);
                         lastUndeliveredWork := lastUndeliveredWork (aws rt);
                         workStatuses :=
                           <[workName := Some {| ctx := Some c; cancelFn := cf;
                                                 working := true;
                                                 work := Some w;
                                                 startedAt := now |}]>
                             (workStatuses (aws rt)) |};
               contexts := h';
               goroutines := goroutines rt |} ∧
    ((needsNewContext rt status = true ∧ c = fresh (dom (contexts rt)) ∧
      cf = Some c ∧ h' = <[c := false]> (contexts rt)) ∨
     (needsNewContext rt status = false ∧ ctx status = Some c ∧
      cf = cancelFn status ∧ h' = contexts rt)).
Proof.
  intros Hst. unfold contextForWork, bind, get. rewrite Hst.
  unfold needsNewContext.
  destruct (ctx status) as [c0|] eqn:Hctx.
  - destruct (ctxCanceled (contexts rt) c0) eqn:Hc.
    + eexists _, _, _. split; [reflexivity|]. left. auto.
    + eexists _, _, _. split; [reflexivity|]. right. auto.
  - eexists _, _, _. split; [reflexivity|]. left. auto.
Qed.

Lemma fresh_context_not_canceled (h : gmap nat bool) :
  ctxCanceled (<[fresh (dom h) := false]> h) (fresh (dom h)) = false.
Proof. unfold ctxCanceled. by rewrite lookup_insert_eq. Qed.

Lemma fresh_context_unallocated (h : gmap nat bool) :
  h !! fresh (dom h) = None.
Proof. apply not_elem_of_dom. apply is_fresh. Qed.

Lemma resetWorkStatus_spec workName rt status :
  workStatuses (aws rt) !! workName = Some (Some status) ->
  resetWorkStatus workName rt =
    Ret tt (set_workStatuses (λ m,
      <[workName := Some {| ctx := ctx status; cancelFn := cancelFn status;
                            working := false; work := None;
                            startedAt := zeroTime |}]> m) rt).
Proof. intros Hst. unfold resetWorkStatus, bind, get. by rewrite Hst. Qed.

Lemma validateWork_valid wk :
  validateWork wk = None -> ∃ w f, wk = Some w ∧ Fn w = Some f.
Proof.
  destruct wk as [w|]; simpl; [|discriminate].
  destruct (Fn w) as [f|] eqn:Hf; [|discriminate]. eauto.
Qed.

Lemma statusOf_Some rt workName status :
  statusOf rt workName = Some status <->
  workStatuses (aws rt) !! workName = Some (Some status).
Proof.
  unfold statusOf.
  destruct (workStatuses (aws rt) !! workName) as [[st|]|];
    split; intros H; by simplify_eq.
Qed.

Lemma isWorking_true rt workName :
  isWorking rt workName = true <->
  ∃ status, statusOf rt workName = Some status ∧ working status = true.
Proof.
  unfold isWorking, IsWorking.
  destruct (statusOf rt workName) as [st|]; split.
  - eauto.
  - by intros (st' & [= <-] & H).
  - discriminate.
  - by intros (st' & [=] & _).
Qed.

Lemma needsNewContext_true rt status :
  needsNewContext rt status = true <->
  ctx status = None ∨
  ∃ c, ctx status = Some c ∧ ctxCanceled (contexts rt) c = true.
Proof.
  unfold needsNewContext. destruct (ctx status) as [c|]; split.
  - eauto.
  - by intros [[=]|(c' & [= <-] & H)].
  - auto.
  - done.
Qed.

(** [AddWork] for a key whose status is working. *)
Lemma AddWork_working now workName w rt status :
  validateWork (Some w) = None ->
  statusOf rt workName = Some status ->
  working status = true ->
  AddWork now workName (Some w) rt =
    (run match lastUndeliveredWork (aws rt) !! workName with
         | Some undelivered => run deref undelivered; ret tt
         | None => ret tt
         end;
     run modify (set_lastUndeliveredWork (λ m, <[workName := Some w]> m));
     match cancelFn status, work status with
     | None, _ =>
         Fatalf (fatalPrefix rt +:+ workName
                 +:+ " nil cancelFn in working status")
     | Some _, None =>
         Fatalf (fatalPrefix rt +:+ workName
                 +:+ " nil work in working status")
     | Some cancelF, Some _ =>
         run cancel cancelF;
         ret None
     end) rt.
Proof.
  intros Hv Hst Hw. apply statusOf_Some in Hst.
  unfold AddWork. rewrite Hv.
  unfold bind at 1. simpl. unfold bind at 1. simpl.
  unfold bind at 1. rewrite Hst. simpl.
  unfold IsWorking. rewrite Hw. reflexivity.
Qed.

(** [AddWork] for a key that is not working: the status is looked up or
    created, the context obtained, the goroutine started. *)
Lemma AddWork_idle now workName w rt :
  validateWork (Some w) = None ->
  isWorking rt workName = false ->
  ∃ c cf h',
    AddWork now workName (Some w) rt =
      Ret None
        {| aws := {| name := name (aws rt);
                     lastUndeliveredWork := lastUndeliveredWork (aws rt);
                     workStatuses :=
                       <[workName := Some {| ctx := Some c; cancelFn := cf;
                                             working := true;
                                             work := Some w;
                                             startedAt := now |}]>
                         (workStatuses (aws rt)) |};
           contexts := h';
           goroutines := goroutines rt ++
             [{| g_ctx := c; g_workName := workName; g_work := Some w;
                 g_err := None |}] |} ∧
    let status := statusForDispatch rt workName in
    ((needsNewContext rt status = true ∧ c = fresh (dom (contexts rt)) ∧
      cf = Some c ∧ h' = <[c := false]> (contexts rt)) ∨
     (needsNewContext rt status = false ∧ ctx status = Some c ∧
      cf = cancelFn status ∧ h' = contexts rt)).
Proof.
  intros Hv Hidle. unfold AddWork. rewrite Hv.
  unfold bind at 1. simpl. unfold bind at 1. simpl. unfold bind at 1.
  unfold isWorking, statusForDispatch, statusOf in *.
  destruct (workStatuses (aws rt) !! workName) as [[st|]|] eqn:Hst.
  - simpl. unfold IsWorking in *. rewrite Hidle. simpl.
    destruct (contextForWork_spec now workName w rt st Hst)
      as (c & cf & h' & Heq & Hcase).
    unfold bind at 1. rewrite Heq. exists c, cf, h'. split; [done|].
    exact Hcase.
  - simpl. unfold bind at 1. simpl.
    edestruct (contextForWork_spec now workName w
                 (set_workStatuses (λ m, <[workName := Some emptyStatus]> m) rt)
                 emptyStatus) as (c & cf & h' & Heq & Hcase).
    { simpl. apply lookup_insert_eq. }
    unfold bind at 1. rewrite Heq. exists c, cf, h'. simpl.
    rewrite insert_insert_eq. split; [done|]. exact Hcase.
  - simpl. unfold bind at 1. simpl.
    edestruct (contextForWork_spec now workName w
                 (set_workStatuses (λ m, <[workName := Some emptyStatus]> m) rt)
                 emptyStatus) as (c & cf & h' & Heq & Hcase).
    { simpl. apply lookup_insert_eq. }
    unfold bind at 1. rewrite Heq. exists c, cf, h'. simpl.
    rewrite insert_insert_eq. split; [done|]. exact Hcase.
Qed.

(** [AddWork] for a working key whose status is complete and whose pending
    slot, if any, holds a work. *)
Lemma AddWork_busy now workName w rt status cancelF cur :
  validateWork (Some w) = None ->
  statusOf rt workName = Some status ->
  working status = true ->
  cancelFn status = Some cancelF ->
  work status = Some cur ->
  lastUndeliveredWork (aws rt) !! workName ≠ Some None ->
  AddWork now workName (Some w) rt =
    Ret None
      {| aws := {| name := name (aws rt);
                   lastUndeliveredWork :=
                     <[workName := Some w]> (lastUndeliveredWork (aws rt));
                   workStatuses := workStatuses (aws rt) |};
         contexts := <[cancelF := true]> (contexts rt);
         goroutines := goroutines rt |}.
Proof.
  intros Hv Hst Hw Hcf Hcur Hpend.
  rewrite (AddWork_working _ _ _ _ _ Hv Hst Hw), Hcf, Hcur.
  unfold bind at 1.
  destruct (lastUndeliveredWork (aws rt) !! workName) as [[u|]|]; try done.
Qed.

Lemma completeWork_pending now workName cw workErr rt status w :
  workStatuses (aws rt) !! workName = Some (Some status) ->
  lastUndeliveredWork (aws rt) !! workName = Some (Some w) ->
  ∃ c cf h',
    completeWork now workName (Some cw) workErr rt =
      Ret tt
        {| aws := {| name := name (aws rt);
                     lastUndeliveredWork :=
                       delete workName (lastUndeliveredWork (aws rt));
                     workStatuses :=
                       <[workName := Some {| ctx := Some c; cancelFn := cf;
                                             working := true;
                                             work := Some w;
                                             startedAt := now |}]>
                         (workStatuses (aws rt)) |};
           contexts := h';
           goroutines := goroutines rt ++
             [{| g_ctx := c; g_workName := workName; g_work := Some w;
                 g_err := None |}] |} ∧
    ((needsNewContext rt status = true ∧ c = fresh (dom (contexts rt)) ∧
      cf = Some c ∧ h' = <[c := false]> (contexts rt)) ∨
     (needsNewContext rt status = false ∧ ctx status = Some c ∧
      cf = cancelFn status ∧ h' = contexts rt)).
Proof.
  intros Hst Hpend.
  destruct (contextForWork_spec now workName w rt status Hst)
    as (c & cf & h' & Heq & Hcase).
  exists c, cf, h'. split; [|exact Hcase].
  unfold completeWork. unfold bind at 1. simpl. unfold bind at 1. simpl.
  rewrite Hpend. unfold bind at 1. rewrite Heq. reflexivity.
Qed.

Lemma completeWork_nothing_pending now workName cw workErr rt status :
  workStatuses (aws rt) !! workName = Some (Some status) ->
  lastUndeliveredWork (aws rt) !! workName = None ->
  completeWork now workName (Some cw) workErr rt =
    Ret tt
      {| aws := {| name := name (aws rt);
                   lastUndeliveredWork := lastUndeliveredWork (aws rt);
                   workStatuses :=
                     <[workName := Some {| ctx := ctx status;
                                           cancelFn := cancelFn status;
                                           working := false; work := None;
                                           startedAt := zeroTime |}]>
                       (workStatuses (aws rt)) |};
         contexts := contexts rt;
         goroutines := goroutines rt |}.
Proof.
  intros Hst Hpend.
  unfold completeWork. unfold bind at 1. simpl. unfold bind at 1. simpl.
  rewrite Hpend. by rewrite (resetWorkStatus_spec _ _ _ Hst).
Qed.

(** The table after a pass of the reaper, entry by entry. *)
Lemma cleanup_lookup (m : gmap string (option workStatus)) workName :
  map_fold cleanupEntry m m !! workName =
    match m !! workName with
    | Some (Some status) =>
        if working status then Some (Some status) else None
    | _ => None
    end.
Proof.
  enough (∀ m0 : gmap string (option workStatus),
    map_fold cleanupEntry m0 m !! workName =
      match m !! workName with
      | Some (Some status) => if working status then m0 !! workName else None
      | Some None => None
      | None => m0 !! workName
      end) as Hgen.
  { rewrite Hgen. by destruct (m !! workName) as [[st|]|]. }
  intros m0.
  apply (map_fold_weak_ind (λ r m',
    r !! workName =
      match m' !! workName with
      | Some (Some status) => if working status then m0 !! workName else None
      | Some None => None
      | None => m0 !! workName
      end)).
  - by rewrite lookup_empty.
  - intros k x m' r Hk IH.
    destruct (decide (k = workName)) as [->|Hne].
    + rewrite lookup_insert_eq. rewrite Hk in IH.
      unfold cleanupEntry. destruct x as [st|].
      * destruct (working st); simpl; [done|]. by rewrite lookup_delete_eq.
      * by rewrite lookup_delete_eq.
    + rewrite lookup_insert_ne by done. rewrite <- IH.
      unfold cleanupEntry. destruct x as [st|].
      * destruct (working st); simpl; [done|]. by rewrite lookup_delete_ne.
      * by rewrite lookup_delete_ne.
Qed.

End Operations.

(** ** Counting the executions in flight *)

Section Inflight.
Implicit Types (l : list goroutine) (g : goroutine) (workName : string).

Lemma inflight_cons workName g l :
  inflight workName (g :: l) =
    ((if decide (g_workName g = workName) then 1 else 0)
     + inflight workName l)%nat.
Proof.
  unfold inflight. rewrite filter_cons.
  by destruct (decide (g_workName g = workName)).
Qed.

Lemma inflight_app workName l g :
  inflight workName (l ++ [g]) =
    (inflight workName l
     + (if decide (g_workName g = workName) then 1 else 0))%nat.
Proof.
  induction l as [|g' l IH].
  - rewrite app_nil_l, inflight_cons. unfold inflight. simpl. lia.
  - rewrite <- app_comm_cons, !inflight_cons, IH. lia.
Qed.

Lemma inflight_delete workName l i g :
  l !! i = Some g ->
  inflight workName l =
    ((if decide (g_workName g = workName) then 1 else 0)
     + inflight workName (delete i l))%nat.
Proof.
  revert i. induction l as [|g' l IH]; intros [|i] Hi; simplify_eq/=.
  - by rewrite inflight_cons.
  - rewrite !inflight_cons, (IH i Hi). lia.
Qed.

Lemma inflight_insert workName l i g g' :
  l !! i = Some g ->
  g_workName g' = g_workName g ->
  inflight workName (<[i := g']> l) = inflight workName l.
Proof.
  intros Hi Hname. revert i Hi.
  induction l as [|g0 l IH]; intros [|i] Hi; simplify_eq/=.
  - by rewrite !inflight_cons, Hname.
  - by rewrite !inflight_cons, (IH i Hi).
Qed.

Lemma elem_of_insert_inv l i g g' :
  g' ∈ <[i := g]> l -> g' = g ∨ g' ∈ l.
Proof.
  revert i. induction l as [|g0 l IH]; intros [|i] Hin; simpl in Hin.
  - by right.
  - by right.
  - apply elem_of_cons in Hin as [->|Hin]; [by left|].
    right. by apply elem_of_cons; right.
  - apply elem_of_cons in Hin as [->|Hin].
    + right. by apply elem_of_cons; left.
    + destruct (IH i Hin) as [->|Hl]; [by left|].
      right. by apply elem_of_cons; right.
Qed.

Lemma delete_insert_same l i g :
  delete i (<[i := g]> l) = delete i l.
Proof.
  revert i. induction l as [|g0 l IH]; intros [|i]; simpl; try done.
  by rewrite IH.
Qed.

Lemma inflight_0 workName l :
  inflight workName l = 0%nat <-> ∀ g, g ∈ l -> g_workName g ≠ workName.
Proof.
  induction l as [|g' l IH].
  - split; [|done]. intros _ g Hg. by apply elem_of_nil in Hg.
  - rewrite inflight_cons. split.
    + intros H0 g Hg. apply elem_of_cons in Hg as [->|Hg].
      * destruct (decide (g_workName g' = workName)); [simpl in H0; lia|done].
      * apply IH; [|done]. lia.
    + intros Hall.
      destruct (decide (g_workName g' = workName)) as [Heq|_].
      * exfalso. apply (Hall g'); [left|done].
      * simpl. apply IH. intros g Hg. apply Hall. by right.
Qed.

End Inflight.

(** ** The invariant is kept by every transition *)

Section Invariant.
Implicit Types (rt : Runtime) (workName : string) (w : Work).

Lemma consistent_new nm : consistent (NewRuntime nm).
Proof.
  split; simpl.
  - intros k. unfold inflight. simpl. lia.
  - intros g Hg. by apply elem_of_nil in Hg.
  - intros k st Hst. unfold statusOf in Hst. simpl in Hst.
    by rewrite lookup_empty in Hst.
  - intros k wk Hp. by rewrite lookup_empty in Hp.
Qed.

(** A key that is not working has no execution in flight. *)
Lemma consistent_idle_inflight rt workName :
  consistent rt -> isWorking rt workName = false ->
  inflight workName (goroutines rt) = 0%nat.
Proof.
  intros Hc Hidle. apply inflight_0. intros g Hg Hname.
  destruct (cons_running rt Hc g Hg) as (st & Hst & Hw & _).
  rewrite Hname in Hst. unfold isWorking, IsWorking in Hidle.
  rewrite Hst in Hidle. congruence.
Qed.

(** Starting an execution for a key that has none in flight. *)
Lemma consistent_dispatch rt now workName w c h' pend :
  consistent rt ->
  inflight workName (goroutines rt) = 0%nat ->
  validateWork (Some w) = None ->
  (∀ k wk, pend !! k = Some wk ->
           lastUndeliveredWork (aws rt) !! k = Some wk) ->
  consistent
    {| aws := {| name := name (aws rt);
                 lastUndeliveredWork := pend;
                 workStatuses :=
                   <[workName := Some {| ctx := Some c; cancelFn := Some c;
                                         working := true; work := Some w;
                                         startedAt := now |}]>
                     (workStatuses (aws rt)) |};
       contexts := h';
       goroutines := goroutines rt ++
         [{| g_ctx := c; g_workName := workName; g_work := Some w;
             g_err := None |}] |}.
Proof.
  intros Hc H0 Hv Hsub. split; simpl.
  - intros k. rewrite inflight_app. simpl.
    destruct (decide (workName = k)) as [<-|Hne].
    + rewrite H0. lia.
    + pose proof (cons_single rt Hc k). lia.
  - intros g Hg. apply elem_of_app in Hg as [Hg|Hg].
    + destruct (cons_running rt Hc g Hg) as (st & Hst & Hw & Hctx & Hgv).
      assert (g_workName g ≠ workName) as Hne
        by (by eapply inflight_0 in H0).
      exists st. split_and!; try done.
      unfold statusOf in *. simpl. by rewrite lookup_insert_ne.
    + apply list_elem_of_singleton in Hg as ->. simpl.
      eexists. split.
      { unfold statusOf. simpl. by rewrite lookup_insert_eq. }
      by split_and!.
  - intros k st Hst. unfold statusOf in Hst. simpl in Hst.
    destruct (decide (workName = k)) as [<-|Hne].
    + rewrite lookup_insert_eq in Hst. simplify_eq. simpl. eauto.
    + rewrite lookup_insert_ne in Hst by done.
      by apply (cons_status rt Hc k).
  - intros k wk Hp. apply Hsub in Hp.
    destruct (cons_pending rt Hc k wk Hp) as [Hw Hwv]. split; [|done].
    unfold isWorking, statusOf in *. simpl.
    destruct (decide (workName = k)) as [<-|Hne].
    + by rewrite lookup_insert_eq.
    + by rewrite lookup_insert_ne.
Qed.

(** The cancel function a dispatch leaves in the status cancels the context
    it hands out. *)
Lemma dispatch_cancelFn rt status (c : nat) (cf : option nat)
    (h' : gmap nat bool) :
  cancelFn status = ctx status ->
  (needsNewContext rt status = true ∧ c = fresh (dom (contexts rt)) ∧
   cf = Some c ∧ h' = <[c := false]> (contexts rt)) ∨
  (needsNewContext rt status = false ∧ ctx status = Some c ∧
   cf = cancelFn status ∧ h' = contexts rt) ->
  cf = Some c ∧ ctxCanceled h' c = false.
Proof.
  intros Hpair [(_ & -> & -> & ->)|(Hn & Hctx & -> & ->)].
  - split; [done|]. apply fresh_context_not_canceled.
  - split; [congruence|]. unfold needsNewContext in Hn. by rewrite Hctx in Hn.
Qed.

Lemma dispatch_context_live rt status (c : nat) (cf : option nat)
    (h' : gmap nat bool) :
  (needsNewContext rt status = true ∧ c = fresh (dom (contexts rt)) ∧
   cf = Some c ∧ h' = <[c := false]> (contexts rt)) ∨
  (needsNewContext rt status = false ∧ ctx status = Some c ∧
   cf = cancelFn status ∧ h' = contexts rt) ->
  ctxCanceled h' c = false.
Proof.
  intros [(_ & -> & -> & ->)|(Hn & Hctx & -> & ->)].
  - apply fresh_context_not_canceled.
  - unfold needsNewContext in Hn. by rewrite Hctx in Hn.
Qed.

Lemma statusForDispatch_pair rt workName :
  consistent rt ->
  cancelFn (statusForDispatch rt workName)
    = ctx (statusForDispatch rt workName).
Proof.
  intros Hc. unfold statusForDispatch.
  destruct (statusOf rt workName) as [st|] eqn:Hst; [|done].
  by apply (cons_status rt Hc workName).
Qed.

Lemma consistent_AddWork rt now workName wk err rt' :
  consistent rt ->
  AddWork now workName wk rt = Ret err rt' ->
  consistent rt'.
Proof.
  intros Hc Hadd.
  destruct (validateWork wk) as [e|] eqn:Hv.
  { unfold AddWork, ret in Hadd. rewrite Hv in Hadd. by simplify_eq. }
  destruct (validateWork_valid wk Hv) as (w & f & -> & Hf).
  destruct (isWorking rt workName) eqn:Hw.
  - apply isWorking_true in Hw as (st & Hst & Hwk).
    destruct (cons_status rt Hc workName st Hst) as [Hpair Hsome].
    destruct (Hsome Hwk) as [[c Hctx] [cur Hcur]].
    rewrite (AddWork_busy now workName w rt st c cur) in Hadd; try done.
    + simplify_eq. split; simpl.
      * apply (cons_single rt Hc).
      * apply (cons_running rt Hc).
      * apply (cons_status rt Hc).
      * intros k wk Hp.
        destruct (decide (workName = k)) as [<-|Hne].
        -- rewrite lookup_insert_eq in Hp. simplify_eq. split; [|done].
           apply isWorking_true. eauto.
        -- rewrite lookup_insert_ne in Hp by done.
           apply (cons_pending rt Hc k wk Hp).
    + congruence.
    + intros Hp. by destruct (cons_pending rt Hc workName None Hp).
  - destruct (AddWork_idle now workName w rt Hv Hw)
      as (c & cf & h' & Heq & Hcase).
    rewrite Heq in Hadd. simplify_eq.
    destruct (dispatch_cancelFn _ _ _ _ _
                (statusForDispatch_pair rt workName Hc) Hcase) as [-> _].
    apply consistent_dispatch; auto using consistent_idle_inflight.
Qed.

Lemma callFn_returns c w f err rt :
  Fn w = Some f ->
  f (ctxCanceled (contexts rt) c) (Params w) = Returns err ->
  callFn c (Some w) rt = Ret err rt.
Proof.
  intros Hf Hres. unfold callFn. unfold bind at 1. simpl.
  unfold bind at 1. simpl. by rewrite Hf, Hres.
Qed.

Lemma callFn_panics c w f v rt :
  Fn w = Some f ->
  f (ctxCanceled (contexts rt) c) (Params w) = Panics v ->
  callFn c (Some w) rt = Panic v rt.
Proof.
  intros Hf Hres. unfold callFn. unfold bind at 1. simpl.
  unfold bind at 1. simpl. by rewrite Hf, Hres.
Qed.

Lemma handleWork_returns now c workName w f err rt :
  Fn w = Some f ->
  f (ctxCanceled (contexts rt) c) (Params w) = Returns err ->
  handleWork now c workName (Some w) rt =
    match completeWork now workName (Some w) err rt with
    | Ret _ rt' => Ret None rt'
    | Fatal msg rt' => Fatal msg rt'
    | Panic v rt' => Panic v rt'
    end.
Proof.
  intros Hf Hres. unfold handleWork. unfold bind at 1.
  rewrite (callFn_returns _ _ _ _ _ Hf Hres). unfold bind.
  by destruct (completeWork now workName (Some w) err rt).
Qed.

Lemma handleWork_panics now c workName w f v rt :
  Fn w = Some f ->
  f (ctxCanceled (contexts rt) c) (Params w) = Panics v ->
  handleWork now c workName (Some w) rt = Panic v rt.
Proof.
  intros Hf Hres. unfold handleWork. unfold bind at 1.
  by rewrite (callFn_panics _ _ _ _ _ Hf Hres).
Qed.

(** The two steps of a goroutine whose work function returns, taken one after
    the other, are the run of its body. *)
Lemma goroutineBody_as_steps ReallyCrash now i g w f err rt :
  goroutines rt !! i = Some g ->
  g_work g = Some w ->
  Fn w = Some f ->
  f (ctxCanceled (contexts rt) (g_ctx g)) (Params w) = Returns err ->
  ∃ rt1,
    runCall ReallyCrash i g rt = Ret tt rt1 ∧
    goroutines rt1 !! i =
      Some {| g_ctx := g_ctx g; g_workName := g_workName g;
              g_work := g_work g; g_err := Some err |} ∧
    runComplete ReallyCrash now i
        {| g_ctx := g_ctx g; g_workName := g_workName g;
           g_work := g_work g; g_err := Some err |} err rt1
      = goroutineBody ReallyCrash now g (set_goroutines (delete i) rt).
Proof.
  intros Hi Hgw Hf Hres.
  set (g' := {| g_ctx := g_ctx g; g_workName := g_workName g;
                g_work := g_work g; g_err := Some err |}).
  exists (set_goroutines (λ l, <[i := g']> l) rt). split_and!.
  - assert (callFn (g_ctx g) (g_work g) rt = Ret err rt) as Hcall
      by (rewrite Hgw; by apply (callFn_returns _ _ f)).
    unfold runCall. by rewrite Hcall.
  - simpl. apply list_lookup_insert_eq. by eapply lookup_lt_Some.
  - assert (set_goroutines (delete i) (set_goroutines (λ l, <[i := g']> l) rt)
            = set_goroutines (delete i) rt) as Hrt.
    { unfold set_goroutines. simpl. by rewrite delete_insert_same. }
    unfold runComplete, goroutineBody. rewrite Hrt. subst g'. simpl.
    rewrite Hgw.
    rewrite (handleWork_returns now (g_ctx g) (g_workName g) w f err
               (set_goroutines (delete i) rt) Hf Hres).
    by destruct (completeWork _ _ _ _ _).
Qed.

(** A goroutine that leaves takes its key's only execution with it. *)
Lemma consistent_remove rt i g :
  consistent rt ->
  goroutines rt !! i = Some g ->
  consistent (set_goroutines (delete i) rt) ∧
  inflight (g_workName g) (delete i (goroutines rt)) = 0%nat.
Proof.
  intros Hc Hi. split; [split; simpl|].
  - intros k. pose proof (cons_single rt Hc k) as Hk.
    rewrite (inflight_delete k _ i g Hi) in Hk. lia.
  - intros g' Hg'. apply list_elem_of_delete_inv in Hg'.
    apply (cons_running rt Hc g' Hg').
  - apply (cons_status rt Hc).
  - apply (cons_pending rt Hc).
  - pose proof (cons_single rt Hc (g_workName g)) as Hk.
    rewrite (inflight_delete _ _ i g Hi) in Hk.
    rewrite decide_True in Hk by done. lia.
Qed.

Lemma consistent_completeWork rt now workName w workErr rt' :
  consistent rt ->
  isWorking rt workName = true ->
  inflight workName (goroutines rt) = 0%nat ->
  completeWork now workName (Some w) workErr rt = Ret tt rt' ->
  consistent rt'.
Proof.
  intros Hc Hw H0 Hcw.
  apply isWorking_true in Hw as (st & Hst & Hwk).
  pose proof Hst as Hlook. apply statusOf_Some in Hlook.
  destruct (lastUndeliveredWork (aws rt) !! workName) as [wk|] eqn:Hp.
  - destruct (cons_pending rt Hc workName wk Hp) as [_ Hv].
    destruct (validateWork_valid wk Hv) as (w' & f' & -> & Hf').
    destruct (completeWork_pending now workName w workErr rt st w' Hlook Hp)
      as (c & cf & h' & Heq & Hcase).
    rewrite Heq in Hcw. simplify_eq.
    destruct (cons_status rt Hc workName st Hst) as [Hpair _].
    destruct (dispatch_cancelFn _ _ _ _ _ Hpair Hcase) as [-> _].
    apply consistent_dispatch; try done.
    intros k wk Hk. by apply lookup_delete_Some in Hk as [_ Hk].
  - rewrite (completeWork_nothing_pending now workName w workErr rt st
               Hlook Hp) in Hcw.
    simplify_eq. split; simpl.
    + apply (cons_single rt Hc).
    + intros g Hg.
      destruct (cons_running rt Hc g Hg) as (st' & Hst' & Hrest).
      assert (g_workName g ≠ workName) as Hne
        by (by eapply inflight_0 in H0).
      exists st'. split; [|done].
      unfold statusOf in *. simpl. by rewrite lookup_insert_ne.
    + intros k st' Hst'. unfold statusOf in Hst'. simpl in Hst'.
      destruct (decide (workName = k)) as [<-|Hne].
      * rewrite lookup_insert_eq in Hst'. simplify_eq. simpl.
        split; [|done]. by apply (cons_status rt Hc workName).
      * rewrite lookup_insert_ne in Hst' by done.
        by apply (cons_status rt Hc k).
    + intros k wk Hk.
      destruct (decide (workName = k)) as [<-|Hne]; [congruence|].
      destruct (cons_pending rt Hc k wk Hk) as [Hw' Hv]. split; [|done].
      unfold isWorking, statusOf in *. simpl.
      by rewrite lookup_insert_ne.
Qed.

(** In a consistent state the completion of a working key returns: its
    status exists and a pending slot holds a work. *)
Lemma completeWork_returns rt now workName w workErr :
  consistent rt ->
  isWorking rt workName = true ->
  ∃ rt', completeWork now workName (Some w) workErr rt = Ret tt rt'.
Proof.
  intros Hc Hw. apply isWorking_true in Hw as (st & Hst & Hwk).
  apply statusOf_Some in Hst.
  destruct (lastUndeliveredWork (aws rt) !! workName) as [wk|] eqn:Hp.
  - destruct (cons_pending rt Hc workName wk Hp) as [_ Hv].
    destruct (validateWork_valid wk Hv) as (w' & f' & -> & Hf').
    destruct (completeWork_pending now workName w workErr rt st w' Hst Hp)
      as (c & cf & h' & Heq & _).
    eauto.
  - rewrite (completeWork_nothing_pending now workName w workErr rt st
               Hst Hp).
    eauto.
Qed.

(** The work function of a goroutine returns or panics. *)
Lemma consistent_call rt ReallyCrash i g rt' :
  consistent rt ->
  goroutines rt !! i = Some g ->
  runCall ReallyCrash i g rt = Ret tt rt' ->
  consistent rt'.
Proof.
  intros Hc Hi Hrun.
  destruct (cons_running rt Hc g (list_elem_of_lookup_2 _ _ _ Hi))
    as (st & Hst & Hwk & Hctx & Hv).
  destruct (validateWork_valid _ Hv) as (w & f & Hgw & Hf).
  unfold runCall in Hrun. rewrite Hgw in Hrun.
  destruct (f (ctxCanceled (contexts rt) (g_ctx g)) (Params w))
    as [err|v] eqn:Hres.
  - rewrite (callFn_returns _ _ _ _ _ Hf Hres) in Hrun. simplify_eq.
    split; simpl.
    + intros k. rewrite (inflight_insert k _ i g); [|done..].
      apply (cons_single rt Hc).
    + intros g' Hg'. apply elem_of_insert_inv in Hg' as [->|Hg'].
      * rewrite Hgw in Hv. exists st. by split_and!.
      * apply (cons_running rt Hc g' Hg').
    + apply (cons_status rt Hc).
    + apply (cons_pending rt Hc).
  - rewrite (callFn_panics _ _ _ _ _ Hf Hres) in Hrun.
    destruct ReallyCrash; simpl in Hrun; [done|].
    unfold ret in Hrun. simplify_eq.
    by destruct (consistent_remove rt i g Hc Hi).
Qed.

(** A goroutine whose work function returned runs [completeWork]. *)
Lemma consistent_complete rt ReallyCrash now i g err rt' :
  consistent rt ->
  goroutines rt !! i = Some g ->
  runComplete ReallyCrash now i g err rt = Ret tt rt' ->
  consistent rt'.
Proof.
  intros Hc Hi Hrun.
  destruct (consistent_remove rt i g Hc Hi) as [Hc0 H0].
  destruct (cons_running rt Hc g (list_elem_of_lookup_2 _ _ _ Hi))
    as (st & Hst & Hwk & _ & Hv).
  destruct (validateWork_valid _ Hv) as (w & f & Hgw & Hf).
  assert (isWorking (set_goroutines (delete i) rt) (g_workName g) = true)
    as Hw0 by (apply isWorking_true; eauto).
  destruct (completeWork_returns _ now (g_workName g) w err Hc0 Hw0)
    as [rt1 Hcw].
  unfold runComplete in Hrun. rewrite Hgw, Hcw in Hrun. simplify_eq.
  by eapply consistent_completeWork.
Qed.

Lemma statusOf_cleanup rt workName :
  statusOf (set_workStatuses (λ m, map_fold cleanupEntry m m) rt) workName =
    match statusOf rt workName with
    | Some status => if working status then Some status else None
    | None => None
    end.
Proof.
  unfold statusOf. simpl. rewrite cleanup_lookup.
  destruct (workStatuses (aws rt) !! workName) as [[st|]|]; try done.
  by destruct (working st).
Qed.

Lemma consistent_reaper rt rt' :
  consistent rt -> cleanupWorkStatus rt = Ret tt rt' -> consistent rt'.
Proof.
  intros Hc Hrun. unfold cleanupWorkStatus, modify in Hrun. simplify_eq.
  split.
  - apply (cons_single rt Hc).
  - intros g Hg.
    destruct (cons_running rt Hc g Hg) as (st & Hst & Hwk & Hrest).
    exists st. split; [|done]. by rewrite statusOf_cleanup, Hst, Hwk.
  - intros k st Hst. rewrite statusOf_cleanup in Hst.
    destruct (statusOf rt k) as [st0|] eqn:Hst0; [|done].
    destruct (working st0); simplify_eq.
    by apply (cons_status rt Hc k).
  - intros k wk Hk.
    destruct (cons_pending rt Hc k wk Hk) as [Hw Hv]. split; [|done].
    apply isWorking_true in Hw as (st & Hst & Hwk).
    apply isWorking_true. exists st.
    by rewrite statusOf_cleanup, Hst, Hwk.
Qed.

Lemma consistent_step ev rt rt' :
  consistent rt -> step ev rt rt' -> consistent rt'.
Proof.
  intros Hc Hstep.
  destruct Hstep as [?????? Hadd|????? Hi _ Hrun|??????? Hi _ Hrun|?? Hrun].
  - by eapply consistent_AddWork.
  - by eapply consistent_call.
  - by eapply consistent_complete.
  - by eapply consistent_reaper.
Qed.

Lemma reachable_consistent rt : reachable rt -> consistent rt.
Proof.
  induction 1 as [nm|ev rt rt' _ IH Hstep].
  - apply consistent_new.
  - by eapply consistent_step.
Qed.

End Invariant.

(** ** The scheduler's properties *)

Section Submission.
Implicit Types (rt : Runtime) (workName : string) (w : Work).

(** C6: an [AddWork] call whose work fails validation, in particular one
    whose executable function is missing, returns a validation error and
    leaves the whole process state as it was: no status entry is created or
    changed, no pending replacement written, no goroutine started and no
    context canceled. *)
Theorem AddWork_invalid_mutates_nothing now workName wk rt :
  validateWork wk ≠ None ∨ (∃ w, wk = Some w ∧ Fn w = None) ->
  ∃ err, AddWork now workName wk rt = Ret (Some err) rt.
Proof.
  intros Hbad.
  assert (∃ e, validateWork wk = Some e) as [e He].
  { destruct Hbad as [Hbad|(w & -> & Hfn)].
    - destruct (validateWork wk); [eauto|done].
    - simpl. rewrite Hfn. eauto. }
  unfold AddWork. rewrite He. unfold ret. eauto.
Qed.

Lemma AddWork_invalid_mutates_nothing_witness :
  (validateWork (Some Wnil) ≠ None ∨ (∃ w, Some Wnil = Some w ∧ Fn w = None))
  ∧ ∃ err, AddWork 20 "podA" (Some Wnil) rtBusy = Ret (Some err) rtBusy.
Proof.
  assert (validateWork (Some Wnil) ≠ None
          ∨ (∃ w, Some Wnil = Some w ∧ Fn w = None)) as H.
  { right. exists Wnil. split; reflexivity. }
  split; [exact H|].
  exact (AddWork_invalid_mutates_nothing 20 "podA" (Some Wnil) rtBusy H).
Defined.

(** C7: an [AddWork] call with a valid work for a key that is idle or has
    no status entry leaves a status entry for the key that is working, with
    the work as current work and [now] as start time, has started one
    goroutine running [handleWork] for that work with the status's context,
    not canceled, and has returned success; the goroutine is started, not
    waited for, and nothing else changes. *)
Theorem AddWork_idle_dispatches now workName w rt :
  validateWork (Some w) = None ->
  isWorking rt workName = false ->
  ∃ c cf rt',
    AddWork now workName (Some w) rt = Ret None rt' ∧
    statusOf rt' workName =
      Some {| ctx := Some c; cancelFn := cf; working := true;
              work := Some w; startedAt := now |} ∧
    goroutines rt' = goroutines rt ++
      [{| g_ctx := c; g_workName := workName; g_work := Some w;
          g_err := None |}] ∧
    ctxCanceled (contexts rt') c = false ∧
    lastUndeliveredWork (aws rt') = lastUndeliveredWork (aws rt) ∧
    (∀ k, k ≠ workName ->
          workStatuses (aws rt') !! k = workStatuses (aws rt) !! k).
Proof.
  intros Hv Hidle.
  destruct (AddWork_idle now workName w rt Hv Hidle)
    as (c & cf & h' & Heq & Hcase).
  eexists c, cf, _. split; [exact Heq|]. simpl. split_and!.
  - unfold statusOf. simpl. by rewrite lookup_insert_eq.
  - done.
  - by eapply dispatch_context_live.
  - done.
  - intros k Hk. by rewrite lookup_insert_ne.
Qed.

Lemma AddWork_idle_dispatches_witness :
  validateWork (Some W1) = None ∧
  isWorking (NewRuntime "aws") "podA" = false ∧
  ∃ c cf rt',
    AddWork 10 "podA" (Some W1) (NewRuntime "aws") = Ret None rt' ∧
    statusOf rt' "podA" =
      Some {| ctx := Some c; cancelFn := cf; working := true;
              work := Some W1; startedAt := 10 |} ∧
    goroutines rt' = goroutines (NewRuntime "aws") ++
      [{| g_ctx := c; g_workName := "podA"; g_work := Some W1;
          g_err := None |}] ∧
    ctxCanceled (contexts rt') c = false ∧
    lastUndeliveredWork (aws rt')
      = lastUndeliveredWork (aws (NewRuntime "aws")) ∧
    (∀ k, k ≠ "podA" ->
          workStatuses (aws rt') !! k
            = workStatuses (aws (NewRuntime "aws")) !! k).
Proof.
  split; [reflexivity|]. split; [reflexivity|].
  exact (AddWork_idle_dispatches 10 "podA" W1 (NewRuntime "aws")
           eq_refl eq_refl).
Defined.

End Submission.

Section Completion.
Implicit Types (rt : Runtime) (workName : string) (w cw : Work).

(** C5: [contextForWork] for a key with a status allocates a new
    cancellable context exactly when the status has no context or its
    context is canceled, and otherwise returns the status's context with the
    context heap and the cancel function untouched; either way the context
    it returns is not canceled, so the replacement that [completeWork]
    dispatches starts with a context that is not canceled. *)
Theorem contextForWork_new_iff_missing_or_canceled now workName w rt status :
  workStatuses (aws rt) !! workName = Some (Some status) ->
  ∃ c rt',
    contextForWork now workName (Some w) rt = Ret c rt' ∧
    ((contexts rt !! c = None ∧ contexts rt' = <[c := false]> (contexts rt))
     <-> (ctx status = None ∨
          ∃ c0, ctx status = Some c0 ∧ ctxCanceled (contexts rt) c0 = true)) ∧
    (needsNewContext rt status = false ->
     ctx status = Some c ∧ contexts rt' = contexts rt ∧
     ∃ status', statusOf rt' workName = Some status' ∧
                ctx status' = ctx status ∧
                cancelFn status' = cancelFn status) ∧
    ctxCanceled (contexts rt') c = false ∧
    (∀ cw workErr w',
       lastUndeliveredWork (aws rt) !! workName = Some (Some w') ->
       ∃ c' rt'',
         completeWork now workName (Some cw) workErr rt = Ret tt rt'' ∧
         goroutines rt'' = goroutines rt ++
           [{| g_ctx := c'; g_workName := workName; g_work := Some w';
               g_err := None |}] ∧
         ctxCanceled (contexts rt'') c' = false).
Proof.
  intros Hst.
  destruct (contextForWork_spec now workName w rt status Hst)
    as (c & cf & h' & Heq & Hcase).
  eexists c, _. split; [exact Heq|]. simpl. split_and!.
  - rewrite <- needsNewContext_true. split.
    + intros [Hnone Hh'].
      destruct Hcase as [(Hn & _)|(_ & _ & _ & ->)]; [done|].
      exfalso. assert (contexts rt !! c = Some false) as Hc
        by (rewrite Hh'; apply lookup_insert_eq).
      congruence.
    + intros Hn. destruct Hcase as [(_ & -> & _ & ->)|(Hn' & _)].
      * split; [apply fresh_context_unallocated|done].
      * congruence.
  - intros Hn. destruct Hcase as [(Hn' & _)|(_ & Hctx & -> & ->)].
    + congruence.
    + split_and!; try done. eexists. split.
      * unfold statusOf. simpl. by rewrite lookup_insert_eq.
      * simpl. split; [by rewrite Hctx|done].
  - by eapply dispatch_context_live.
  - intros cw workErr w' Hp.
    destruct (completeWork_pending now workName cw workErr rt status w'
                Hst Hp) as (c' & cf' & h'' & Heq' & Hcase').
    eexists c', _. split; [exact Heq'|]. simpl. split; [done|].
    by eapply dispatch_context_live.
Qed.

Lemma contextForWork_new_iff_missing_or_canceled_witness :
  workStatuses (aws rtQueued) !! "podA" =
    Some (Some {| ctx := Some 0; cancelFn := Some 0; working := true;
                  work := Some W1; startedAt := 10 |}) ∧
  ∃ c rt',
    contextForWork 12 "podA" (Some W2) rtQueued = Ret c rt' ∧
    ctxCanceled (contexts rtQueued) 0 = true ∧
    c ≠ 0 ∧
    ctxCanceled (contexts rt') c = false.
Proof.
  assert (workStatuses (aws rtQueued) !! "podA" =
    Some (Some {| ctx := Some 0; cancelFn := Some 0; working := true;
                  work := Some W1; startedAt := 10 |})) as Hst
    by (vm_compute; reflexivity).
  split; [exact Hst|].
  destruct (contextForWork_new_iff_missing_or_canceled 12 "podA" W2 rtQueued
              _ Hst) as (c & rt' & Heq & Hiff & _ & Hlive & _).
  exists c, rt'. split; [exact Heq|].
  assert (ctxCanceled (contexts rtQueued) 0 = true) as Hold
    by (vm_compute; reflexivity).
  split; [exact Hold|]. split; [|exact Hlive].
  destruct Hiff as [_ Hnew].
  destruct Hnew as [Hnone _].
  { right. exists 0. split; [reflexivity|exact Hold]. }
  intros ->. revert Hnone. vm_compute. discriminate.
Defined.

(** C4: [completeWork] for a key with a status.  If the pending slot holds a
    work, the slot is emptied and that work becomes the current work of a
    working status and is started in a new goroutine; otherwise the status is
    reset to idle (not working, no current work, zero start time) with its
    context and cancel function kept, and no goroutine is started.  The
    transition does not depend on the reported error: nothing retries the
    completed work. *)
Theorem completeWork_dispatches_or_resets now workName cw workErr rt status :
  workStatuses (aws rt) !! workName = Some (Some status) ->
  (∀ w, lastUndeliveredWork (aws rt) !! workName = Some (Some w) ->
     ∃ c cf rt',
       completeWork now workName (Some cw) workErr rt = Ret tt rt' ∧
       lastUndeliveredWork (aws rt')
         = delete workName (lastUndeliveredWork (aws rt)) ∧
       workStatuses (aws rt')
         = <[workName := Some {| ctx := Some c; cancelFn := cf;
                                 working := true; work := Some w;
                                 startedAt := now |}]>
             (workStatuses (aws rt)) ∧
       goroutines rt' = goroutines rt ++
         [{| g_ctx := c; g_workName := workName; g_work := Some w;
             g_err := None |}]) ∧
  (lastUndeliveredWork (aws rt) !! workName = None ->
     ∃ rt',
       completeWork now workName (Some cw) workErr rt = Ret tt rt' ∧
       lastUndeliveredWork (aws rt') = lastUndeliveredWork (aws rt) ∧
       workStatuses (aws rt')
         = <[workName := Some {| ctx := ctx status;
                                 cancelFn := cancelFn status;
                                 working := false; work := None;
                                 startedAt := zeroTime |}]>
             (workStatuses (aws rt)) ∧
       contexts rt' = contexts rt ∧
       goroutines rt' = goroutines rt) ∧
  (∀ workErr',
     completeWork now workName (Some cw) workErr' rt
       = completeWork now workName (Some cw) workErr rt).
Proof.
  intros Hst. split_and!.
  - intros w Hp.
    destruct (completeWork_pending now workName cw workErr rt status w
                Hst Hp) as (c & cf & h' & Heq & _).
    eexists c, cf, _. split; [exact Heq|]. by simpl.
  - intros Hp.
    rewrite (completeWork_nothing_pending now workName cw workErr rt status
               Hst Hp).
    eexists. split; [reflexivity|]. by simpl.
  - reflexivity.
Qed.

Lemma completeWork_dispatches_or_resets_witness :
  workStatuses (aws rtQueued) !! "podA" =
    Some (Some {| ctx := Some 0; cancelFn := Some 0; working := true;
                  work := Some W1; startedAt := 10 |}) ∧
  ∃ c cf rt',
    completeWork 12 "podA" (Some W1) (Some "sync failed") rtQueued
      = Ret tt rt' ∧
    lastUndeliveredWork (aws rt')
      = delete "podA" (lastUndeliveredWork (aws rtQueued)) ∧
    workStatuses (aws rt')
      = <["podA" := Some {| ctx := Some c; cancelFn := cf;
                            working := true; work := Some W2;
                            startedAt := 12 |}]>
          (workStatuses (aws rtQueued)) ∧
    goroutines rt' = goroutines rtQueued ++
      [{| g_ctx := c; g_workName := "podA"; g_work := Some W2;
          g_err := None |}].
Proof.
  assert (workStatuses (aws rtQueued) !! "podA" =
    Some (Some {| ctx := Some 0; cancelFn := Some 0; working := true;
                  work := Some W1; startedAt := 10 |})) as Hst
    by (vm_compute; reflexivity).
  split; [exact Hst|].
  destruct (completeWork_dispatches_or_resets 12 "podA" W1
              (Some "sync failed") rtQueued _ Hst) as (Hpend & _ & _).
  apply Hpend. vm_compute. reflexivity.
Defined.

End Completion.

Section BusyKey.
Implicit Types (rt : Runtime) (workName : string) (w : Work).

Lemma rtBusy_reachable : reachable rtBusy.
Proof.
  apply (reachable_step (EvAddWork 10 "podA" (Some W1)) (NewRuntime "aws")).
  - apply reachable_new.
  - apply (step_AddWork _ _ _ None). vm_compute. reflexivity.
Qed.

(** The scenario of the scheduler's description: W1 starts at once; W2,
    submitted while W1 runs, cancels W1's context and waits; when W1 is done W2
    starts with a context of its own that is not canceled; when W2 is done the
    key is idle, and the next tick of the reaper deletes its status. *)
Example scenario_podA :
  statusOf rtBusy "podA" =
    Some {| ctx := Some 0; cancelFn := Some 0; working := true;
            work := Some W1; startedAt := 10 |} ∧
  lastUndeliveredWork (aws rtQueued) !! "podA" = Some (Some W2) ∧
  ctxCanceled (contexts rtQueued) 0 = true ∧
  statusOf rtChained "podA" =
    Some {| ctx := Some 1; cancelFn := Some 1; working := true;
            work := Some W2; startedAt := 12 |} ∧
  goroutines rtChained =
    [{| g_ctx := 1; g_workName := "podA"; g_work := Some W2;
        g_err := None |}] ∧
  ctxCanceled (contexts rtChained) 1 = false ∧
  lastUndeliveredWork (aws rtChained) !! "podA" = None ∧
  statusOf rtIdle "podA" =
    Some {| ctx := Some 1; cancelFn := Some 1; working := false;
            work := None; startedAt := zeroTime |} ∧
  goroutines rtIdle = [] ∧
  workStatuses (aws rtReaped) !! "podA" = None.
Proof. split_and!; vm_compute; reflexivity. Qed.

Lemma rtQueued_reachable : reachable rtQueued.
Proof.
  apply (reachable_step (EvAddWork 11 "podA" (Some W2)) rtBusy).
  - apply rtBusy_reachable.
  - apply (step_AddWork _ _ _ None). vm_compute. reflexivity.
Qed.

Lemma consistent_workingHasCancelAndWork rt :
  consistent rt -> workingHasCancelAndWork rt.
Proof.
  intros Hc k st Hst Hwk.
  destruct (cons_status rt Hc k st Hst) as [Hpair Hsome].
  destruct (Hsome Hwk) as [Hctx Hcur]. by rewrite Hpair.
Qed.

(** C3: in a state the process can reach, an [AddWork] call with a valid
    work for a key that is working overwrites the key's pending slot with
    that work, whatever the slot held, calls the cancel function of the
    key's status, which cancels the context of the key's running execution
    before the call returns, and returns success; statuses and goroutines are
    as before. *)
Theorem AddWork_busy_queues_and_cancels now workName w rt :
  reachable rt ->
  validateWork (Some w) = None ->
  isWorking rt workName = true ->
  ∃ status cancelF rt',
    AddWork now workName (Some w) rt = Ret None rt' ∧
    lastUndeliveredWork (aws rt')
      = <[workName := Some w]> (lastUndeliveredWork (aws rt)) ∧
    statusOf rt workName = Some status ∧
    cancelFn status = Some cancelF ∧
    contexts rt' = <[cancelF := true]> (contexts rt) ∧
    workStatuses (aws rt') = workStatuses (aws rt) ∧
    goroutines rt' = goroutines rt ∧
    (∀ g, g ∈ goroutines rt -> g_workName g = workName ->
          ctxCanceled (contexts rt') (g_ctx g) = true).
Proof.
  intros Hreach Hv Hw. apply reachable_consistent in Hreach as Hc.
  apply isWorking_true in Hw as (st & Hst & Hwk).
  destruct (cons_status rt Hc workName st Hst) as [Hpair Hsome].
  destruct (Hsome Hwk) as [[c Hctx] [cur Hcur]].
  assert (cancelFn st = Some c) as Hcf by congruence.
  exists st, c. eexists. split.
  { apply (AddWork_busy now workName w rt st c cur); try done.
    intros Hp. by destruct (cons_pending rt Hc workName None Hp). }
  simpl. split_and!; try done.
  intros g Hg Hname.
  destruct (cons_running rt Hc g Hg) as (st' & Hst' & _ & Hctx' & _).
  rewrite Hname in Hst'. simplify_eq.
  unfold ctxCanceled. by rewrite lookup_insert_eq.
Qed.

Lemma AddWork_busy_queues_and_cancels_witness :
  reachable rtQueued ∧
  validateWork (Some W3) = None ∧
  isWorking rtQueued "podA" = true ∧
  lastUndeliveredWork (aws rtQueued) !! "podA" = Some (Some W2) ∧
  ∃ status cancelF rt',
    AddWork 13 "podA" (Some W3) rtQueued = Ret None rt' ∧
    lastUndeliveredWork (aws rt')
      = <["podA" := Some W3]> (lastUndeliveredWork (aws rtQueued)) ∧
    statusOf rtQueued "podA" = Some status ∧
    cancelFn status = Some cancelF ∧
    contexts rt' = <[cancelF := true]> (contexts rtQueued) ∧
    workStatuses (aws rt') = workStatuses (aws rtQueued) ∧
    goroutines rt' = goroutines rtQueued ∧
    (∀ g, g ∈ goroutines rtQueued -> g_workName g = "podA" ->
          ctxCanceled (contexts rt') (g_ctx g) = true).
Proof.
  split; [exact rtQueued_reachable|].
  split; [reflexivity|].
  split; [vm_compute; reflexivity|].
  split; [vm_compute; reflexivity|].
  apply (AddWork_busy_queues_and_cancels 13 "podA" W3 rtQueued
           rtQueued_reachable eq_refl).
  vm_compute. reflexivity.
Defined.

(** C9: in [AddWork], a status that is working but has no cancel function
    or no current work never lets the call return, neither with an error
    nor with success: the call ends in [general.Fatalf] (whenever the key's
    pending slot is not a nil pointer, whose dereference for the log would
    panic first).  When every working status has its cancel function and
    its current work, as in every state the process can reach, no [AddWork]
    call ends in [general.Fatalf]. *)
Theorem AddWork_fatal_only_on_broken_status now workName wk rt :
  validateWork wk = None ->
  (∀ status,
     statusOf rt workName = Some status ->
     working status = true ->
     cancelFn status = None ∨ work status = None ->
     (∀ err rt', AddWork now workName wk rt ≠ Ret err rt') ∧
     (lastUndeliveredWork (aws rt) !! workName ≠ Some None ->
      ∃ msg rt', AddWork now workName wk rt = Fatal msg rt')) ∧
  (workingHasCancelAndWork rt ->
   ∀ msg rt', AddWork now workName wk rt ≠ Fatal msg rt') ∧
  (reachable rt -> workingHasCancelAndWork rt).
Proof.
  intros Hv. destruct (validateWork_valid wk Hv) as (w & f & -> & Hf).
  split_and!.
  - intros st Hst Hwk Hnil.
    rewrite (AddWork_working now workName w rt st Hv Hst Hwk).
    unfold bind at 1.
    destruct (lastUndeliveredWork (aws rt) !! workName) as [[u|]|]; simpl.
    + split; [|intros _];
        destruct Hnil as [->| ->]; destruct (cancelFn st), (work st);
        unfold bind, modify, Fatalf; simpl; eauto; done.
    + split; [done|]. by intros [].
    + split; [|intros _];
        destruct Hnil as [->| ->]; destruct (cancelFn st), (work st);
        unfold bind, modify, Fatalf; simpl; eauto; done.
  - intros Hinv msg rt' Hadd.
    destruct (isWorking rt workName) eqn:Hw.
    + apply isWorking_true in Hw as (st & Hst & Hwk).
      destruct (Hinv workName st Hst Hwk) as [[c Hcf] [cur Hcur]].
      rewrite (AddWork_working now workName w rt st Hv Hst Hwk) in Hadd.
      rewrite Hcf, Hcur in Hadd. unfold bind at 1 in Hadd.
      by destruct (lastUndeliveredWork (aws rt) !! workName) as [[u|]|].
    + destruct (AddWork_idle now workName w rt Hv Hw)
        as (c & cf & h' & Heq & _).
      congruence.
  - intros Hreach.
    by apply consistent_workingHasCancelAndWork, reachable_consistent.
Qed.

Lemma AddWork_fatal_only_on_broken_status_witness :
  validateWork (Some W1) = None ∧
  (∃ msg rt', AddWork 20 "podA" (Some W1) rtBroken = Fatal msg rt') ∧
  (∀ msg rt', AddWork 20 "podA" (Some W1) rtBusy ≠ Fatal msg rt').
Proof.
  split; [reflexivity|]. split.
  - destruct (AddWork_fatal_only_on_broken_status 20 "podA" (Some W1)
                rtBroken eq_refl) as (Hbroken & _ & _).
    destruct (Hbroken {| ctx := None; cancelFn := None; working := true;
                         work := None; startedAt := 7 |})
      as [_ Hfatal].
    + vm_compute. reflexivity.
    + reflexivity.
    + left. reflexivity.
    + apply Hfatal. vm_compute. discriminate.
  - destruct (AddWork_fatal_only_on_broken_status 20 "podA" (Some W1)
                rtBusy eq_refl) as (_ & Hnever & Hinv).
    apply Hnever, Hinv, rtBusy_reachable.
Defined.

End BusyKey.

Section Reaper.
Implicit Types (rt : Runtime) (workName : string).

Lemma cleanupWorkStatus_eq rt :
  cleanupWorkStatus rt =
    Ret tt (set_workStatuses (λ m, map_fold cleanupEntry m m) rt).
Proof. reflexivity. Qed.

Lemma workStatuses_set f rt :
  workStatuses (aws (set_workStatuses f rt)) = f (workStatuses (aws rt)).
Proof. reflexivity. Qed.

Lemma reaperPasses_S n rt :
  reaperPasses (S n) rt =
    set_workStatuses (λ m, map_fold cleanupEntry m m) (reaperPasses n rt).
Proof. reflexivity. Qed.

Lemma reaperPasses_lookup n rt workName :
  workStatuses (aws (reaperPasses (S n) rt)) !! workName =
    match workStatuses (aws rt) !! workName with
    | Some (Some status) =>
        if working status then Some (Some status) else None
    | _ => None
    end.
Proof.
  induction n as [|n IH].
  - apply cleanup_lookup.
  - rewrite reaperPasses_S, workStatuses_set, cleanup_lookup, IH.
    destruct (workStatuses (aws rt) !! workName) as [[st|]|]; try done.
    by destruct (working st) eqn:Hw; rewrite ?Hw.
Qed.

(** C8: a pass of the reaper returns with a status table that has lost
    exactly the entries that were nil or not working and kept every working
    entry as it was; pending replacements, contexts and goroutines are not
    touched.  After any number of passes a working entry is still there,
    and after one or more passes the table is the one the first pass left. *)
Theorem cleanupWorkStatus_deletes_exactly_not_working rt :
  ∃ rt',
    cleanupWorkStatus rt = Ret tt rt' ∧
    (∀ workName,
       workStatuses (aws rt') !! workName =
         match workStatuses (aws rt) !! workName with
         | Some (Some status) =>
             if working status then Some (Some status) else None
         | _ => None
         end) ∧
    lastUndeliveredWork (aws rt') = lastUndeliveredWork (aws rt) ∧
    contexts rt' = contexts rt ∧
    goroutines rt' = goroutines rt ∧
    (∀ n workName status,
       workStatuses (aws rt) !! workName = Some (Some status) ->
       working status = true ->
       workStatuses (aws (reaperPasses n rt)) !! workName
         = Some (Some status)) ∧
    (∀ n workName,
       workStatuses (aws (reaperPasses (S n) rt)) !! workName
         = workStatuses (aws rt') !! workName).
Proof.
  eexists. split; [apply cleanupWorkStatus_eq|]. split_and!; try done.
  - intros k. rewrite workStatuses_set. apply cleanup_lookup.
  - intros [|n] k st Hst Hwk; [done|].
    by rewrite reaperPasses_lookup, Hst, Hwk.
  - intros n k.
    by rewrite reaperPasses_lookup, workStatuses_set, cleanup_lookup.
Qed.

End Reaper.

Section PendingInvariant.
Implicit Types (rt : Runtime) (workName : string).

Lemma pendingImpliesWorking_AddWork rt rt' now workName wk err :
  pendingImpliesWorking rt ->
  AddWork now workName wk rt = Ret err rt' ->
  pendingImpliesWorking rt'.
Proof.
  intros Hinv Hadd.
  destruct (validateWork wk) as [e|] eqn:Hv.
  { unfold AddWork, ret in Hadd. rewrite Hv in Hadd. by simplify_eq. }
  destruct (validateWork_valid wk Hv) as (w & f & -> & Hf).
  destruct (isWorking rt workName) eqn:Hw.
  - pose proof Hw as Hw'. apply isWorking_true in Hw' as (st & Hst & Hwk).
    rewrite (AddWork_working now workName w rt st Hv Hst Hwk) in Hadd.
    unfold bind at 1 in Hadd.
    destruct (lastUndeliveredWork (aws rt) !! workName) as [[u|]|] eqn:Hp;
      simpl in Hadd; try done;
      destruct (cancelFn st), (work st); try done;
      unfold bind, modify, cancel, ret in Hadd; simpl in Hadd;
      simplify_eq;
      intros k wk Hk; simpl in Hk;
      (destruct (decide (workName = k)) as [<-|Hne];
       [exact Hw
       |rewrite lookup_insert_ne in Hk by done; exact (Hinv k wk Hk)]).
  - destruct (AddWork_idle now workName w rt Hv Hw)
      as (c & cf & h' & Heq & _).
    rewrite Heq in Hadd. simplify_eq.
    intros k wk Hk. simpl in Hk. apply Hinv in Hk.
    unfold isWorking, statusOf in *. simpl.
    destruct (decide (workName = k)) as [<-|Hne].
    + by rewrite lookup_insert_eq.
    + by rewrite lookup_insert_ne.
Qed.

Lemma pendingImpliesWorking_completeWork rt rt' now workName cw workErr :
  pendingImpliesWorking rt ->
  completeWork now workName cw workErr rt = Ret tt rt' ->
  pendingImpliesWorking rt'.
Proof.
  intros Hinv Hcw. destruct cw as [w|]; [|done].
  destruct (workStatuses (aws rt) !! workName) as [[st|]|] eqn:Hst;
    destruct (lastUndeliveredWork (aws rt) !! workName) as [[w'|]|] eqn:Hp;
    try (cbv [completeWork bind deref ret get contextForWork
              resetWorkStatus Fatalf] in Hcw;
         rewrite ?Hp in Hcw; cbv beta iota in Hcw;
         rewrite ?Hst in Hcw; discriminate).
  - destruct (completeWork_pending now workName w workErr rt st w' Hst Hp)
      as (c & cf & h' & Heq & _).
    rewrite Heq in Hcw. simplify_eq.
    intros k wk Hk. simpl in Hk.
    apply lookup_delete_Some in Hk as [Hne Hk]. apply Hinv in Hk.
    unfold isWorking, statusOf in *. simpl. by rewrite lookup_insert_ne.
  - rewrite (completeWork_nothing_pending now workName w workErr rt st
               Hst Hp) in Hcw.
    simplify_eq. intros k wk Hk. simpl in Hk.
    destruct (decide (workName = k)) as [<-|Hne]; [congruence|].
    apply Hinv in Hk.
    unfold isWorking, statusOf in *. simpl. by rewrite lookup_insert_ne.
Qed.

Lemma pendingImpliesWorking_cleanup rt rt' :
  pendingImpliesWorking rt ->
  cleanupWorkStatus rt = Ret tt rt' ->
  pendingImpliesWorking rt' ∧
  ∀ workName wk,
    lastUndeliveredWork (aws rt') !! workName = Some wk ->
    workStatuses (aws rt') !! workName = workStatuses (aws rt) !! workName.
Proof.
  intros Hinv Hrun. rewrite cleanupWorkStatus_eq in Hrun. simplify_eq.
  split; intros k wk Hk; simpl in Hk; apply Hinv in Hk;
    apply isWorking_true in Hk as (st & Hst & Hwk).
  - apply isWorking_true. exists st. by rewrite statusOf_cleanup, Hst, Hwk.
  - simpl. rewrite cleanup_lookup. apply statusOf_Some in Hst.
    by rewrite Hst, Hwk.
Qed.

(** The table invariant of the pending replacements.  A new scheduler has no
    pending replacement, and each of [AddWork], [completeWork] and
    [cleanupWorkStatus] keeps the invariant that a key with a pending
    replacement has a status entry that is working; so a pass of the reaper
    leaves the status entry of every key with a pending replacement as it was,
    and the invariant holds in every state the process can reach.  It does not
    say that a pending replacement is ever started. *)
Theorem pending_implies_working_invariant :
  (∀ nm, pendingImpliesWorking (NewRuntime nm)) ∧
  (∀ rt rt' now workName wk err,
     pendingImpliesWorking rt ->
     AddWork now workName wk rt = Ret err rt' ->
     pendingImpliesWorking rt') ∧
  (∀ rt rt' now workName cw workErr,
     pendingImpliesWorking rt ->
     completeWork now workName cw workErr rt = Ret tt rt' ->
     pendingImpliesWorking rt') ∧
  (∀ rt rt',
     pendingImpliesWorking rt ->
     cleanupWorkStatus rt = Ret tt rt' ->
     pendingImpliesWorking rt' ∧
     ∀ workName wk,
       lastUndeliveredWork (aws rt') !! workName = Some wk ->
       workStatuses (aws rt') !! workName
         = workStatuses (aws rt) !! workName ∧
       isWorking rt' workName = true) ∧
  (∀ rt, reachable rt -> pendingImpliesWorking rt).
Proof.
  split_and!.
  - intros nm k wk Hk. simpl in Hk. by rewrite lookup_empty in Hk.
  - apply pendingImpliesWorking_AddWork.
  - apply pendingImpliesWorking_completeWork.
  - intros rt rt' Hinv Hrun.
    destruct (pendingImpliesWorking_cleanup rt rt' Hinv Hrun) as [H1 H2].
    split; [done|]. intros k wk Hk. split; [by eapply H2|by eapply H1].
  - intros rt Hreach k wk Hk.
    by destruct (cons_pending rt (reachable_consistent rt Hreach) k wk Hk).
Qed.

End PendingInvariant.

Section SingleFlight.
Implicit Types (rt : Runtime) (workName : string).

(** C2: in every state the process can reach, each key has at most one
    execution of its work in flight, and so after every step.  A step starts
    an execution only in two ways: an [AddWork] for a key that is not working
    and has no execution in flight, or the [completeWork] of a key's
    execution that starts the key's pending replacement, the completing
    execution being the key's only one.  The return or panic of a work
    function and the reaper start none. *)
Theorem single_flight rt :
  reachable rt ->
  (∀ workName, inflight workName (goroutines rt) ≤ 1) ∧
  (∀ ev rt',
     step ev rt rt' ->
     (∀ workName, inflight workName (goroutines rt') ≤ 1) ∧
     match ev with
     | EvAddWork now workName wk =>
         goroutines rt' = goroutines rt ∨
         (isWorking rt workName = false ∧
          inflight workName (goroutines rt) = 0 ∧
          ∃ c, goroutines rt' = goroutines rt ++
                 [{| g_ctx := c; g_workName := workName; g_work := wk;
                     g_err := None |}])
     | EvCall _ i =>
         ∃ g, goroutines rt !! i = Some g ∧
              (goroutines rt' = delete i (goroutines rt) ∨
               ∃ err,
                 goroutines rt' =
                   <[i := {| g_ctx := g_ctx g; g_workName := g_workName g;
                             g_work := g_work g; g_err := Some err |}]>
                     (goroutines rt))
     | EvComplete _ _ i =>
         ∃ g, goroutines rt !! i = Some g ∧
              inflight (g_workName g) (delete i (goroutines rt)) = 0 ∧
              (goroutines rt' = delete i (goroutines rt) ∨
               ∃ c wk,
                 lastUndeliveredWork (aws rt) !! g_workName g = Some wk ∧
                 goroutines rt' = delete i (goroutines rt) ++
                   [{| g_ctx := c; g_workName := g_workName g;
                       g_work := wk; g_err := None |}])
     | EvReaper => goroutines rt' = goroutines rt
     end).
Proof.
  intros Hreach. pose proof (reachable_consistent rt Hreach) as Hc.
  split; [apply (cons_single rt Hc)|].
  intros ev rt' Hstep. split.
  { apply (cons_single rt'). by eapply consistent_step. }
  destruct Hstep as [now workName wk err rt rt' Hadd
                    |rc i g rt rt' Hi Herr Hrun
                    |rc now i g err rt rt' Hi Herr Hrun
                    |rt rt' Hrun].
  - destruct (validateWork wk) as [e|] eqn:Hv.
    { unfold AddWork, ret in Hadd. rewrite Hv in Hadd. simplify_eq.
      by left. }
    destruct (validateWork_valid wk Hv) as (w & f & -> & Hf).
    destruct (isWorking rt workName) eqn:Hw.
    + left. apply isWorking_true in Hw as (st & Hst & Hwk).
      destruct (cons_status rt Hc workName st Hst) as [Hpair Hsome].
      destruct (Hsome Hwk) as [[c Hctx] [cur Hcur]].
      rewrite (AddWork_busy now workName w rt st c cur) in Hadd;
        try done; [by simplify_eq|congruence|].
      intros Hp. by destruct (cons_pending rt Hc workName None Hp).
    + right. destruct (AddWork_idle now workName w rt Hv Hw)
        as (c & cf & h' & Heq & _).
      rewrite Heq in Hadd. simplify_eq. simpl.
      split_and!; eauto using consistent_idle_inflight.
  - exists g. split; [done|].
    destruct (cons_running rt Hc g (list_elem_of_lookup_2 _ _ _ Hi))
      as (st & Hst & Hwk & _ & Hv).
    destruct (validateWork_valid _ Hv) as (w & f & Hgw & Hf).
    unfold runCall in Hrun.
    destruct (f (ctxCanceled (contexts rt) (g_ctx g)) (Params w))
      as [werr|v] eqn:Hres.
    + rewrite Hgw, (callFn_returns _ _ _ _ _ Hf Hres) in Hrun.
      simplify_eq. right. exists werr. simpl. by rewrite Hgw.
    + rewrite Hgw, (callFn_panics _ _ _ _ _ Hf Hres) in Hrun.
      destruct rc; simpl in Hrun; [done|].
      unfold ret in Hrun. simplify_eq. by left.
  - exists g. destruct (consistent_remove rt i g Hc Hi) as [Hc0 H0].
    split; [done|]. split; [done|].
    destruct (cons_running rt Hc g (list_elem_of_lookup_2 _ _ _ Hi))
      as (st & Hst & Hwk & _ & Hv).
    destruct (validateWork_valid _ Hv) as (w & f & Hgw & Hf).
    unfold runComplete in Hrun. rewrite Hgw in Hrun.
    apply statusOf_Some in Hst.
    destruct (lastUndeliveredWork (aws rt) !! g_workName g)
      as [wk|] eqn:Hp.
    + destruct (cons_pending rt Hc _ wk Hp) as [_ Hwv].
      destruct (validateWork_valid wk Hwv) as (w' & f' & -> & Hf').
      destruct (completeWork_pending now (g_workName g) w err
                  (set_goroutines (delete i) rt) st w' Hst Hp)
        as (c & cf & h' & Heq & _).
      rewrite Heq in Hrun. simplify_eq. right. simpl. eauto.
    + rewrite (completeWork_nothing_pending now (g_workName g) w err
                 (set_goroutines (delete i) rt) st Hst Hp) in Hrun.
      simplify_eq. by left.
  - rewrite cleanupWorkStatus_eq in Hrun. by simplify_eq.
Qed.

Lemma single_flight_witness :
  reachable rtQueued ∧
  ∀ workName, inflight workName (goroutines rtQueued) ≤ 1.
Proof.
  split; [exact rtQueued_reachable|].
  exact (proj1 (single_flight rtQueued rtQueued_reachable)).
Defined.

End SingleFlight.

Section Crash.
Implicit Types (rt : Runtime) (workName : string).

Lemma rtPanicRunning_reachable : reachable rtPanicRunning.
Proof.
  apply (reachable_step (EvCall false 0) rtPanic).
  - apply (reachable_step (EvAddWork 10 "podA" (Some Wpanic))
             (NewRuntime "aws")).
    + apply reachable_new.
    + apply (step_AddWork _ _ _ None). vm_compute. reflexivity.
  - apply (step_call false 0 gPanic); vm_compute; reflexivity.
Qed.

Lemma stuck_not_running workName rt g :
  stuck workName rt -> g ∈ goroutines rt -> g_workName g ≠ workName.
Proof. intros [_ H0] Hg. by eapply inflight_0 in H0. Qed.

(** No step frees a stuck key: only the key's own [completeWork] would, and
    none of its work is executing. *)
Lemma stuck_step ev workName rt rt' :
  consistent rt -> stuck workName rt -> step ev rt rt' -> stuck workName rt'.
Proof.
  intros Hc Hstuck Hstep. pose proof Hstuck as [Hk H0].
  destruct Hstep as [now k wk err rt rt' Hadd
                    |rc i g rt rt' Hi Herr Hrun
                    |rc now i g err rt rt' Hi Herr Hrun
                    |rt rt' Hrun].
  - destruct (validateWork wk) as [e|] eqn:Hv.
    { unfold AddWork, ret in Hadd. rewrite Hv in Hadd. by simplify_eq. }
    destruct (validateWork_valid wk Hv) as (w & f & -> & Hf).
    destruct (isWorking rt k) eqn:Hw.
    + apply isWorking_true in Hw as (st & Hst & Hwk).
      destruct (cons_status rt Hc k st Hst) as [Hpair Hsome].
      destruct (Hsome Hwk) as [[c Hctx] [cur Hcur]].
      rewrite (AddWork_busy now k w rt st c cur) in Hadd;
        try done; [by simplify_eq|congruence|].
      intros Hp. by destruct (cons_pending rt Hc k None Hp).
    + assert (k ≠ workName) as Hne by congruence.
      destruct (AddWork_idle now k w rt Hv Hw) as (c & cf & h' & Heq & _).
      rewrite Heq in Hadd. simplify_eq. split.
      * unfold isWorking, statusOf in *. simpl. by rewrite lookup_insert_ne.
      * simpl. rewrite inflight_app. simpl. rewrite decide_False by done. lia.
  - pose proof (stuck_not_running _ _ g Hstuck
                  (list_elem_of_lookup_2 _ _ _ Hi)) as Hne.
    destruct (cons_running rt Hc g (list_elem_of_lookup_2 _ _ _ Hi))
      as (st & Hst & Hwk & _ & Hv).
    destruct (validateWork_valid _ Hv) as (w & f & Hgw & Hf).
    unfold runCall in Hrun.
    destruct (f (ctxCanceled (contexts rt) (g_ctx g)) (Params w))
      as [werr|v] eqn:Hres.
    + rewrite Hgw, (callFn_returns _ _ _ _ _ Hf Hres) in Hrun.
      simplify_eq. split; [done|]. simpl.
      by rewrite (inflight_insert workName _ i g).
    + rewrite Hgw, (callFn_panics _ _ _ _ _ Hf Hres) in Hrun.
      destruct rc; simpl in Hrun; [done|].
      unfold ret in Hrun. simplify_eq. split; [done|]. simpl.
      rewrite (inflight_delete workName _ i g Hi) in H0. lia.
  - pose proof (stuck_not_running _ _ g Hstuck
                  (list_elem_of_lookup_2 _ _ _ Hi)) as Hne.
    assert (inflight workName (delete i (goroutines rt)) = 0) as H0'
      by (rewrite (inflight_delete workName _ i g Hi) in H0; lia).
    destruct (cons_running rt Hc g (list_elem_of_lookup_2 _ _ _ Hi))
      as (st & Hst & Hwk & _ & Hv).
    destruct (validateWork_valid _ Hv) as (w & f & Hgw & Hf).
    unfold runComplete in Hrun. rewrite Hgw in Hrun.
    apply statusOf_Some in Hst.
    destruct (lastUndeliveredWork (aws rt) !! g_workName g)
      as [wk|] eqn:Hp.
    + destruct (cons_pending rt Hc _ wk Hp) as [_ Hwv].
      destruct (validateWork_valid wk Hwv) as (w' & f' & -> & Hf').
      destruct (completeWork_pending now (g_workName g) w err
                  (set_goroutines (delete i) rt) st w' Hst Hp)
        as (c & cf & h' & Heq & _).
      rewrite Heq in Hrun. simplify_eq. split.
      * unfold isWorking, statusOf in *. simpl. by rewrite lookup_insert_ne.
      * simpl. rewrite inflight_app. simpl. rewrite decide_False by done. lia.
    + rewrite (completeWork_nothing_pending now (g_workName g) w err
                 (set_goroutines (delete i) rt) st Hst Hp) in Hrun.
      simplify_eq. split; [|done].
      unfold isWorking, statusOf in *. simpl. by rewrite lookup_insert_ne.
  - rewrite cleanupWorkStatus_eq in Hrun. simplify_eq. split; [|done].
    apply isWorking_true in Hk as (st & Hst & Hwk).
    apply isWorking_true. exists st. by rewrite statusOf_cleanup, Hst, Hwk.
Qed.

Lemma stuck_forever workName rt0 rt :
  reachable rt0 -> stuck workName rt0 -> runsTo rt0 rt ->
  reachable rt ∧ stuck workName rt.
Proof.
  intros Hreach Hstuck. induction 1 as [|ev rt1 rt2 _ [IHr IHs] Hstep].
  - done.
  - split; [by eapply reachable_step|].
    eapply stuck_step; [|exact IHs|exact Hstep].
    by apply reachable_consistent.
Qed.


(** C1: the execution of a work whose function panics.  [AddWork] for an
    idle key starts the goroutine and marks the key working.  When the
    function panics, [handleWork] is left with the state as it was:
    [completeWork] has not run.  The goroutine's deferred
    [runtime.HandleCrash] then panics again (the process ends) or, with
    [ReallyCrash] unset, lets the goroutine end; the key is then working with
    no execution in flight, a later [AddWork] for the key only queues its
    work and starts nothing, and whatever happens next the key stays working
    with none of its work executing. *)
Theorem handleWork_panic_skips_completeWork :
  goroutines rtPanic = [gPanic] ∧
  isWorking rtPanic "podA" = true ∧
  handleWork 11 0 "podA" (Some Wpanic) rtPanicRunning
    = Panic "index out of range" rtPanicRunning ∧
  goroutineBody true 11 gPanic rtPanicRunning
    = Panic "index out of range" rtPanicRunning ∧
  goroutineBody false 11 gPanic rtPanicRunning = Ret tt rtPanicRunning ∧
  isWorking rtPanicRunning "podA" = true ∧
  goroutines rtPanicRunning = [] ∧
  (∃ rt', AddWork 12 "podA" (Some W1) rtPanicRunning = Ret None rt' ∧
          lastUndeliveredWork (aws rt') !! "podA" = Some (Some W1) ∧
          goroutines rt' = []) ∧
  (∀ rt, runsTo rtPanicRunning rt ->
         isWorking rt "podA" = true ∧ inflight "podA" (goroutines rt) = 0).
Proof.
  split_and!; try (vm_compute; reflexivity).
  - eexists. split_and!; vm_compute; reflexivity.
  - intros rt Hruns.
    apply (stuck_forever "podA" rtPanicRunning rt rtPanicRunning_reachable);
      [|done].
    split; vm_compute; reflexivity.
Qed.

End Crash.

(** ** Steps by their effect *)

Section Effects.
Implicit Types (rt : Runtime) (workName : string) (w : Work).

Lemma contextChoice_cancelFn rt status c cf h' :
  cancelFn status = ctx status ->
  (needsNewContext rt status = true ∧ c = fresh (dom (contexts rt)) ∧
   cf = Some c ∧ h' = <[c := false]> (contexts rt)) ∨
  (needsNewContext rt status = false ∧ ctx status = Some c ∧
   cf = cancelFn status ∧ h' = contexts rt) ->
  cf = Some c ∧ contextChoice rt status c h'.
Proof.
  intros Hpair [(Hn & -> & -> & ->)|(Hn & Hctx & -> & ->)].
  - split; [done|]. left. done.
  - split; [congruence|]. right. done.
Qed.

(** Every step from a consistent state has one of the effects. *)
Lemma step_effect ev rt rt' :
  consistent rt -> step ev rt rt' -> effect ev rt rt'.
Proof.
  intros Hc Hstep.
  destruct Hstep as [now workName wk err rt rt' Hadd
                    |rc i g rt rt' Hi Herr Hrun
                    |rc now i g err rt rt' Hi Herr Hrun
                    |rt rt' Hrun].
  - destruct (validateWork wk) as [e|] eqn:Hv.
    { unfold AddWork, ret in Hadd. rewrite Hv in Hadd. simplify_eq.
      apply eff_rejected. by rewrite Hv. }
    destruct (validateWork_valid wk Hv) as (w & f & -> & Hf).
    destruct (isWorking rt workName) eqn:Hw.
    + apply isWorking_true in Hw as (st & Hst & Hwk).
      destruct (cons_status rt Hc workName st Hst) as [Hpair Hsome].
      destruct (Hsome Hwk) as [[c Hctx] [cur Hcur]].
      assert (cancelFn st = Some c) as Hcf by congruence.
      rewrite (AddWork_busy now workName w rt st c cur) in Hadd; try done.
      * simplify_eq. by eapply eff_queued.
      * intros Hp. by destruct (cons_pending rt Hc workName None Hp).
    + destruct (AddWork_idle now workName w rt Hv Hw)
        as (c & cf & h' & Heq & Hcase).
      rewrite Heq in Hadd. simplify_eq.
      destruct (contextChoice_cancelFn _ _ _ _ _
                  (statusForDispatch_pair rt workName Hc) Hcase)
        as [-> Hchoice].
      by apply (eff_started now workName w c h' rt).
  - destruct (cons_running rt Hc g (list_elem_of_lookup_2 _ _ _ Hi))
      as (st & Hst & Hwk & _ & Hv).
    destruct (validateWork_valid _ Hv) as (w & f & Hgw & Hf).
    unfold runCall in Hrun.
    destruct (f (ctxCanceled (contexts rt) (g_ctx g)) (Params w))
      as [werr|v] eqn:Hres.
    + assert (callFn (g_ctx g) (g_work g) rt = Ret werr rt) as Hcall
        by (rewrite Hgw; by apply (callFn_returns _ _ f)).
      rewrite Hcall in Hrun. simplify_eq. by apply eff_returned.
    + rewrite Hgw, (callFn_panics _ _ _ _ _ Hf Hres) in Hrun.
      destruct rc; simpl in Hrun; [done|].
      unfold ret in Hrun. simplify_eq. by eapply eff_crashed.
  - destruct (cons_running rt Hc g (list_elem_of_lookup_2 _ _ _ Hi))
      as (st & Hst & Hwk & _ & Hv).
    destruct (validateWork_valid _ Hv) as (w & f & Hgw & Hf).
    unfold runComplete in Hrun. rewrite Hgw in Hrun.
    pose proof Hst as Hlook. apply statusOf_Some in Hlook.
    destruct (lastUndeliveredWork (aws rt) !! g_workName g)
      as [wk|] eqn:Hp.
    + destruct (cons_pending rt Hc _ wk Hp) as [_ Hwv].
      destruct (validateWork_valid wk Hwv) as (w' & f' & -> & Hf').
      destruct (completeWork_pending now (g_workName g) w err
                  (set_goroutines (delete i) rt) st w' Hlook Hp)
        as (c & cf & h' & Heq & Hcase).
      rewrite Heq in Hrun. simplify_eq.
      destruct (cons_status rt Hc _ st Hst) as [Hpair _].
      destruct (contextChoice_cancelFn _ _ _ _ _ Hpair Hcase)
        as [-> Hchoice].
      by apply (eff_replaced rc now i g st w' c h' rt).
    + rewrite (completeWork_nothing_pending now (g_workName g) w err
                 (set_goroutines (delete i) rt) st Hlook Hp) in Hrun.
      simplify_eq. by apply (eff_finished rc now i g st rt).
  - rewrite cleanupWorkStatus_eq in Hrun. simplify_eq. apply eff_reaped.
Qed.

End Effects.

(** ** Pending work behind a crashed execution *)

Section Stranded.
Implicit Types (rt : Runtime) (workName : string).





End Stranded.

(** ** Each status owns its context *)

Section Ownership.
Implicit Types (rt : Runtime) (workName : string) (w : Work).

Lemma statusOf_dispatched now workName w c h' pend rt k :
  statusOf (dispatched now workName w c h' pend rt) k =
    if decide (workName = k)
    then Some {| ctx := Some c; cancelFn := Some c; working := true;
                 work := Some w; startedAt := now |}
    else statusOf rt k.
Proof.
  unfold statusOf. simpl. destruct (decide (workName = k)) as [<-|Hne].
  - by rewrite lookup_insert_eq.
  - by rewrite lookup_insert_ne.
Qed.

Lemma statusOf_idled workName status rt k :
  statusOf (idled workName status rt) k =
    if decide (workName = k)
    then Some {| ctx := ctx status; cancelFn := cancelFn status;
                 working := false; work := None; startedAt := zeroTime |}
    else statusOf rt k.
Proof.
  unfold statusOf. simpl. destruct (decide (workName = k)) as [<-|Hne].
  - by rewrite lookup_insert_eq.
  - by rewrite lookup_insert_ne.
Qed.

Lemma ctxCanceled_insert (h : gmap nat bool) (c c' : nat) (b : bool) :
  ctxCanceled (<[c := b]> h) c' =
    if decide (c = c') then b else ctxCanceled h c'.
Proof.
  unfold ctxCanceled. destruct (decide (c = c')) as [<-|Hne].
  - rewrite lookup_insert_eq. by destruct b.
  - by rewrite lookup_insert_ne.
Qed.

Lemma contextChoice_live rt status c h' :
  contextChoice rt status c h' -> ctxCanceled h' c = false.
Proof.
  intros [(_ & -> & ->)|(Hn & Hctx & ->)].
  - apply fresh_context_not_canceled.
  - unfold needsNewContext in Hn. by rewrite Hctx in Hn.
Qed.

Lemma contextChoice_keeps rt status c h' c' :
  contextChoice rt status c h' ->
  is_Some (contexts rt !! c') ->
  h' !! c' = contexts rt !! c'.
Proof.
  intros [(_ & -> & ->)|(_ & _ & ->)] Hc'; [|done].
  apply lookup_insert_ne. intros Heq. rewrite <- Heq in Hc'.
  rewrite fresh_context_unallocated in Hc'. by destruct Hc'.
Qed.

Lemma contextChoice_new_or_own rt status c h' :
  contextChoice rt status c h' ->
  (contexts rt !! c = None ∧ h' !! c = Some false) ∨
  (ctx status = Some c ∧ h' = contexts rt).
Proof.
  intros [(_ & -> & ->)|(_ & Hctx & ->)].
  - left. split; [apply fresh_context_unallocated|apply lookup_insert_eq].
  - by right.
Qed.

Lemma owned_new nm : ownedContexts (NewRuntime nm).
Proof.
  split.
  - intros k st c Hst. unfold statusOf in Hst. simpl in Hst.
    by rewrite lookup_empty in Hst.
  - intros k1 k2 st1 st2 c Hst. unfold statusOf in Hst. simpl in Hst.
    by rewrite lookup_empty in Hst.
  - intros g Hg. by apply elem_of_nil in Hg.
Qed.

(** Taking goroutines away keeps the ownership. *)
Lemma owned_fewer_goroutines rt (f : list goroutine -> list goroutine) :
  ownedContexts rt ->
  (∀ g, g ∈ f (goroutines rt) ->
        ∃ g0, g0 ∈ goroutines rt ∧ g_ctx g = g_ctx g0 ∧
              g_workName g = g_workName g0) ->
  ownedContexts (set_goroutines f rt).
Proof.
  intros Ho Hsub. split.
  - apply (own_allocated rt Ho).
  - apply (own_distinct rt Ho).
  - intros g Hg. simpl in *.
    destruct (Hsub g Hg) as (g0 & Hg0 & -> & ->).
    apply (own_canceled rt Ho g0 Hg0).
Qed.

(** A dispatch for a key with no execution in flight and no pending
    replacement left. *)
Lemma owned_dispatched rt now workName w c h' pend status0 :
  consistent rt ->
  ownedContexts rt ->
  inflight workName (goroutines rt) = 0 ->
  contextChoice rt status0 c h' ->
  (∀ c0, ctx status0 = Some c0 ->
         ∃ status, statusOf rt workName = Some status ∧ ctx status = Some c0) ->
  pend !! workName = None ->
  (∀ k, k ≠ workName -> pend !! k = lastUndeliveredWork (aws rt) !! k) ->
  ownedContexts (dispatched now workName w c h' pend rt).
Proof.
  intros Hc Ho H0 Hchoice Hown Hpk Hpo. split.
  - intros k st c' Hst Hctx. rewrite statusOf_dispatched in Hst. simpl.
    destruct (decide (workName = k)) as [<-|Hne]; simplify_eq/=.
    + destruct (contextChoice_new_or_own _ _ _ _ Hchoice)
        as [[_ Hnew]|[Hctx ->]]; [by rewrite Hnew|].
      destruct (Hown _ Hctx) as (st & Hst & Hctx').
      by apply (own_allocated rt Ho workName st).
    + pose proof (own_allocated rt Ho k st c' Hst Hctx) as Hal.
      by rewrite (contextChoice_keeps _ _ _ _ _ Hchoice Hal).
  - intros k1 k2 st1 st2 c' Hst1 Hst2 Hc1 Hc2.
    rewrite statusOf_dispatched in Hst1, Hst2.
    destruct (decide (workName = k1)) as [<-|Hne1];
      destruct (decide (workName = k2)) as [<-|Hne2];
      simplify_eq/=; try done.
    + destruct (contextChoice_new_or_own _ _ _ _ Hchoice)
        as [[Hnone _]|[Hctx _]].
      * destruct (own_allocated rt Ho k2 st2 _ Hst2 Hc2) as [b Hb].
        congruence.
      * destruct (Hown _ Hctx) as (st & Hst & Hctx').
        by apply (own_distinct rt Ho workName k2 st st2 _ Hst Hst2 Hctx').
    + destruct (contextChoice_new_or_own _ _ _ _ Hchoice)
        as [[Hnone _]|[Hctx _]].
      * destruct (own_allocated rt Ho k1 st1 _ Hst1 Hc1) as [b Hb].
        congruence.
      * destruct (Hown _ Hctx) as (st & Hst & Hctx').
        by apply (own_distinct rt Ho k1 workName st1 st _ Hst1 Hst Hc1).
    + by apply (own_distinct rt Ho k1 k2 st1 st2 c').
  - intros g Hg. simpl in Hg. simpl.
    apply elem_of_app in Hg as [Hg|Hg].
    + assert (g_workName g ≠ workName) as Hne
        by (by eapply inflight_0 in H0).
      rewrite (Hpo _ Hne).
      destruct (cons_running rt Hc g Hg) as (st & Hst & _ & Hctx & _).
      pose proof (own_allocated rt Ho _ st _ Hst Hctx) as Hal.
      unfold ctxCanceled.
      rewrite (contextChoice_keeps _ _ _ _ _ Hchoice Hal).
      apply (own_canceled rt Ho g Hg).
    + apply list_elem_of_singleton in Hg as ->. simpl.
      rewrite (contextChoice_live _ _ _ _ Hchoice), Hpk.
      split; [done|]. by intros [? ?].
Qed.

Lemma owned_effect ev rt rt' :
  consistent rt -> ownedContexts rt -> effect ev rt rt' -> ownedContexts rt'.
Proof.
  intros Hc Ho Heff.
  destruct Heff as [now k wk rt Hv
                   |now k w st c rt Hv Hst Hwk Hctx Hcf
                   |now k w c h' rt Hv Hidle Hchoice
                   |rc i g err rt Hi Herr
                   |i g rt Hi Herr
                   |rc now i g st w c h' rt Hi Hst Hwk Hp Hv Hchoice
                   |rc now i g st rt Hi Hst Hwk Hp
                   |rt].
  - done.
  - split.
    + intros k' st' c' Hst' Hctx'. simpl.
      destruct (own_allocated rt Ho k' st' c' Hst' Hctx') as [b Hb].
      destruct (decide (c = c')) as [<-|Hne].
      * by rewrite lookup_insert_eq.
      * rewrite lookup_insert_ne by done. eauto.
    + apply (own_distinct rt Ho).
    + intros g Hg. simpl in *. rewrite ctxCanceled_insert.
      destruct (cons_running rt Hc g Hg) as (st' & Hst' & _ & Hctx' & _).
      destruct (decide (g_workName g = k)) as [Hk|Hk].
      * rewrite Hk in *. simplify_eq. rewrite decide_True by done.
        rewrite lookup_insert_eq. split; [eauto|done].
      * rewrite lookup_insert_ne by done.
        destruct (decide (c = g_ctx g)) as [Heq|Hne].
        -- exfalso. apply Hk. symmetry.
           apply (own_distinct rt Ho k (g_workName g) st st' c); congruence.
        -- apply (own_canceled rt Ho g Hg).
  - apply (owned_dispatched rt now k w c h' _ (statusForDispatch rt k));
      try done.
    + by apply consistent_idle_inflight.
    + intros c0 Hc0. unfold statusForDispatch in Hc0.
      destruct (statusOf rt k) as [st|]; [eauto|done].
    + destruct (lastUndeliveredWork (aws rt) !! k) as [wk|] eqn:Hp; [|done].
      destruct (cons_pending rt Hc k wk Hp). congruence.
  - apply owned_fewer_goroutines; [done|].
    intros g' Hg'. apply elem_of_insert_inv in Hg' as [->|Hg'].
    + exists g. split; [by eapply list_elem_of_lookup_2|done].
    + eauto.
  - apply owned_fewer_goroutines; [done|].
    intros g' Hg'. apply list_elem_of_delete_inv in Hg'. eauto.
  - destruct (consistent_remove rt i g Hc Hi) as [Hc0 H0].
    apply (owned_dispatched (set_goroutines (delete i) rt) now
             (g_workName g) w c h' _ st); try done.
    + apply owned_fewer_goroutines; [done|].
      intros g' Hg'. apply list_elem_of_delete_inv in Hg'. eauto.
    + eauto.
    + apply lookup_delete_eq.
    + intros k Hk. simpl. by rewrite lookup_delete_ne.
  - destruct (consistent_remove rt i g Hc Hi) as [Hc0 H0].
    split.
    + intros k st' c' Hst' Hctx'. rewrite statusOf_idled in Hst'. simpl.
      destruct (decide (g_workName g = k)) as [<-|Hne]; simplify_eq/=.
      * by apply (own_allocated rt Ho (g_workName g) st).
      * by apply (own_allocated rt Ho k st').
    + intros k1 k2 st1 st2 c' Hst1 Hst2 Hc1 Hc2.
      rewrite statusOf_idled in Hst1, Hst2.
      destruct (decide (g_workName g = k1)) as [<-|Hne1];
        destruct (decide (g_workName g = k2)) as [<-|Hne2];
        simplify_eq/=; try done.
      * by apply (own_distinct rt Ho (g_workName g) k2 st st2 c').
      * by apply (own_distinct rt Ho k1 (g_workName g) st1 st c').
      * by apply (own_distinct rt Ho k1 k2 st1 st2 c').
    + intros g' Hg'. simpl in *. apply list_elem_of_delete_inv in Hg'.
      apply (own_canceled rt Ho g' Hg').
  - split.
    + intros k st c Hst Hctx. rewrite statusOf_cleanup in Hst. simpl.
      destruct (statusOf rt k) as [st0|] eqn:Hst0; [|done].
      destruct (working st0); simplify_eq.
      by apply (own_allocated rt Ho k st).
    + intros k1 k2 st1 st2 c Hst1 Hst2 Hc1 Hc2.
      rewrite statusOf_cleanup in Hst1, Hst2.
      destruct (statusOf rt k1) as [s1|] eqn:Hs1; [|done].
      destruct (statusOf rt k2) as [s2|] eqn:Hs2; [|done].
      destruct (working s1), (working s2); simplify_eq.
      by apply (own_distinct rt Ho k1 k2 st1 st2 c).
    + apply (own_canceled rt Ho).
Qed.

Lemma reachable_owned rt : reachable rt -> ownedContexts rt.
Proof.
  induction 1 as [nm|ev rt rt' Hreach IH Hstep].
  - apply owned_new.
  - pose proof (reachable_consistent rt Hreach) as Hc.
    eapply owned_effect; [exact Hc|exact IH|by apply step_effect].
Qed.

End Ownership.

(** ** Further properties of the scheduler *)

Section Cancellation.
Implicit Types (rt : Runtime) (workName : string) (w : Work).

(** X1: in every state the process can reach, the context of a live
    goroutine is canceled exactly when a replacement is pending for the
    goroutine's key: a running work is never told to stop without a
    replacement waiting, and never keeps a live context once one waits. *)
Theorem canceled_iff_replacement_pending rt g :
  reachable rt ->
  g ∈ goroutines rt ->
  ctxCanceled (contexts rt) (g_ctx g) = true <->
  is_Some (lastUndeliveredWork (aws rt) !! g_workName g).
Proof.
  intros Hreach Hg. by apply (own_canceled rt (reachable_owned rt Hreach)).
Qed.

Lemma canceled_iff_replacement_pending_witness :
  reachable rtQueued ∧
  {| g_ctx := 0; g_workName := "podA"; g_work := Some W1; g_err := None |}
    ∈ goroutines rtQueued ∧
  (ctxCanceled (contexts rtQueued) 0 = true <->
   is_Some (lastUndeliveredWork (aws rtQueued) !! "podA")).
Proof.
  assert ({| g_ctx := 0; g_workName := "podA"; g_work := Some W1;
             g_err := None |} ∈ goroutines rtQueued) as Hg
    by (vm_compute; apply list_elem_of_here).
  split; [exact rtQueued_reachable|]. split; [exact Hg|].
  exact (canceled_iff_replacement_pending rtQueued _ rtQueued_reachable Hg).
Defined.

End Cancellation.

Section NoAbort.
Implicit Types (rt : Runtime) (workName : string) (w : Work).

(** X4: in every state the process can reach, the scheduler's own code never
    ends the process: every [AddWork] call returns, the [completeWork] of
    every live goroutine returns, the reaper returns, and the call of a work
    function either returns or ends in the panic of that function itself, which
    ends the process only when [ReallyCrash] is set. *)
Theorem scheduler_never_aborts rt :
  reachable rt ->
  (∀ now workName wk, ∃ err rt', AddWork now workName wk rt = Ret err rt') ∧
  (∀ ReallyCrash now i g err,
     goroutines rt !! i = Some g ->
     ∃ rt', runComplete ReallyCrash now i g err rt = Ret tt rt') ∧
  (∀ ReallyCrash i g,
     goroutines rt !! i = Some g ->
     (∃ rt', runCall ReallyCrash i g rt = Ret tt rt') ∨
     (ReallyCrash = true ∧
      ∃ w f v,
        g_work g = Some w ∧ Fn w = Some f ∧
        f (ctxCanceled (contexts rt) (g_ctx g)) (Params w) = Panics v ∧
        runCall ReallyCrash i g rt
          = Panic v (set_goroutines (delete i) rt))) ∧
  (∃ rt', cleanupWorkStatus rt = Ret tt rt').
Proof.
  intros Hreach. pose proof (reachable_consistent rt Hreach) as Hc.
  split_and!.
  - intros now workName wk.
    destruct (validateWork wk) as [e|] eqn:Hv.
    { unfold AddWork, ret. rewrite Hv. eauto. }
    destruct (validateWork_valid wk Hv) as (w & f & -> & Hf).
    destruct (isWorking rt workName) eqn:Hw.
    + apply isWorking_true in Hw as (st & Hst & Hwk).
      destruct (cons_status rt Hc workName st Hst) as [Hpair Hsome].
      destruct (Hsome Hwk) as [[c Hctx] [cur Hcur]].
      rewrite (AddWork_busy now workName w rt st c cur); try done.
      * eauto.
      * congruence.
      * intros Hp. by destruct (cons_pending rt Hc workName None Hp).
    + destruct (AddWork_idle now workName w rt Hv Hw)
        as (c & cf & h' & Heq & _).
      eauto.
  - intros rc now i g err Hi.
    destruct (consistent_remove rt i g Hc Hi) as [Hc0 H0].
    destruct (cons_running rt Hc g (list_elem_of_lookup_2 _ _ _ Hi))
      as (st & Hst & Hwk & _ & Hv).
    destruct (validateWork_valid _ Hv) as (w & f & Hgw & Hf).
    assert (isWorking (set_goroutines (delete i) rt) (g_workName g) = true)
      as Hw0 by (apply isWorking_true; eauto).
    destruct (completeWork_returns _ now (g_workName g) w err Hc0 Hw0)
      as [rt1 Hcw].
    unfold runComplete. rewrite Hgw, Hcw. eauto.
  - intros rc i g Hi.
    destruct (cons_running rt Hc g (list_elem_of_lookup_2 _ _ _ Hi))
      as (st & Hst & Hwk & _ & Hv).
    destruct (validateWork_valid _ Hv) as (w & f & Hgw & Hf).
    unfold runCall.
    destruct (f (ctxCanceled (contexts rt) (g_ctx g)) (Params w))
      as [werr|v] eqn:Hres.
    + left. rewrite Hgw, (callFn_returns _ _ _ _ _ Hf Hres). eauto.
    + rewrite Hgw, (callFn_panics _ _ _ _ _ Hf Hres).
      destruct rc; simpl.
      * right. split; [done|]. exists w, f, v. by rewrite Hres.
      * left. unfold ret. eauto.
  - rewrite cleanupWorkStatus_eq. eauto.
Qed.

Lemma scheduler_never_aborts_witness :
  reachable rtQueued ∧
  (∃ err rt', AddWork 14 "podB" None rtQueued = Ret err rt') ∧
  (∃ rt', cleanupWorkStatus rtQueued = Ret tt rt').
Proof.
  split; [exact rtQueued_reachable|].
  destruct (scheduler_never_aborts rtQueued rtQueued_reachable)
    as (Hadd & _ & _ & Hreap).
  split; [apply Hadd|exact Hreap].
Defined.

End NoAbort.


Section Isolation.
Implicit Types (rt : Runtime) (workName : string) (w : Work).

Lemma filter_delete_other (P : goroutine -> Prop) `{∀ g, Decision (P g)}
    (l : list goroutine) i g :
  l !! i = Some g -> ¬ P g -> filter P (delete i l) = filter P l.
Proof.
  revert i. induction l as [|g0 l IH]; intros [|i] Hi Hg; simplify_eq/=.
  - by rewrite filter_cons_False.
  - rewrite !filter_cons, (IH i Hi Hg). done.
Qed.

Lemma filter_insert_other (P : goroutine -> Prop) `{∀ g, Decision (P g)}
    (l : list goroutine) i g g' :
  l !! i = Some g -> ¬ P g -> ¬ P g' -> filter P (<[i := g']> l) = filter P l.
Proof.
  revert i. induction l as [|g0 l IH]; intros [|i] Hi Hg Hg'; simplify_eq/=.
  - by rewrite !filter_cons_False.
  - rewrite !filter_cons, (IH i Hi Hg Hg'). done.
Qed.

Lemma goroutinesOf_elem workName rt g :
  g ∈ goroutinesOf workName rt <-> g_workName g = workName ∧ g ∈ goroutines rt.
Proof.
  unfold goroutinesOf.
  apply (list_elem_of_filter (λ g, g_workName g = workName)).
Qed.

(** The context of a working key's goroutine is allocated, and differs from
    the context of every other key's status. *)
Lemma running_context rt k g :
  consistent rt -> ownedContexts rt ->
  g ∈ goroutinesOf k rt ->
  is_Some (contexts rt !! g_ctx g) ∧
  ∀ k0 st0, statusOf rt k0 = Some st0 -> ctx st0 = Some (g_ctx g) -> k0 = k.
Proof.
  intros Hc Ho Hg. apply goroutinesOf_elem in Hg as [Hname Hg].
  destruct (cons_running rt Hc g Hg) as (st & Hst & _ & Hctx & _).
  rewrite Hname in Hst. split.
  - by apply (own_allocated rt Ho k st).
  - intros k0 st0 Hst0 Hctx0.
    by apply (own_distinct rt Ho k0 k st0 st (g_ctx g)).
Qed.

(** X2: a step never disturbs a key it does not work for.  In every state
    the process can reach, a submission, the return or panic of a work
    function and a completion leave the status entry, the pending slot and the
    live goroutines of every other key as they were, and the contexts of those
    goroutines canceled or not as before; the reaper does so for every key
    that is working. *)
Theorem step_leaves_other_keys rt ev rt' k :
  reachable rt ->
  step ev rt rt' ->
  keyOf ev rt ≠ Some k ->
  ev ≠ EvReaper ∨ isWorking rt k = true ->
  workStatuses (aws rt') !! k = workStatuses (aws rt) !! k ∧
  lastUndeliveredWork (aws rt') !! k = lastUndeliveredWork (aws rt) !! k ∧
  goroutinesOf k rt' = goroutinesOf k rt ∧
  ∀ g, g ∈ goroutinesOf k rt ->
       ctxCanceled (contexts rt') (g_ctx g)
         = ctxCanceled (contexts rt) (g_ctx g).
Proof.
  intros Hreach Hstep Hkey Hreap.
  pose proof (reachable_consistent rt Hreach) as Hc.
  pose proof (reachable_owned rt Hreach) as Ho.
  destruct (step_effect ev rt rt' Hc Hstep)
    as [now k0 wk rt Hv
       |now k0 w st c rt Hv Hst Hwk Hctx Hcf
       |now k0 w c h' rt Hv Hidle Hchoice
       |rc i g0 err rt Hi Herr
       |i g0 rt Hi Herr
       |rc now i g0 st w c h' rt Hi Hst Hwk Hp Hv Hchoice
       |rc now i g0 st rt Hi Hst Hwk Hp
       |rt]; simpl in Hkey.
  - done.
  - assert (k0 ≠ k) as Hne by congruence. simpl. split_and!; try done.
    + by rewrite lookup_insert_ne.
    + intros g Hg. rewrite ctxCanceled_insert.
      destruct (running_context rt k g Hc Ho Hg) as [_ Hother].
      destruct (decide (c = g_ctx g)) as [Heq|]; [|done].
      exfalso. apply Hne. apply (Hother k0 st Hst). congruence.
  - assert (k0 ≠ k) as Hne by congruence. simpl. split_and!; try done.
    + by rewrite lookup_insert_ne.
    + unfold goroutinesOf. simpl.
      rewrite filter_app, filter_cons_False, filter_nil, app_nil_r; done.
    + intros g Hg. destruct (running_context rt k g Hc Ho Hg) as [Hal _].
      unfold ctxCanceled. by rewrite (contextChoice_keeps _ _ _ _ _ Hchoice).
  - rewrite Hi in Hkey. simpl in Hkey.
    assert (g_workName g0 ≠ k) as Hne by congruence.
    simpl. split_and!; try done.
    unfold goroutinesOf. simpl. by apply (filter_insert_other _ _ i g0).
  - rewrite Hi in Hkey. simpl in Hkey.
    assert (g_workName g0 ≠ k) as Hne by congruence.
    simpl. split_and!; try done.
    unfold goroutinesOf. simpl. by apply (filter_delete_other _ _ i g0).
  - rewrite Hi in Hkey. simpl in Hkey.
    assert (g_workName g0 ≠ k) as Hne by congruence.
    simpl. split_and!.
    + by rewrite lookup_insert_ne.
    + by rewrite lookup_delete_ne.
    + unfold goroutinesOf. simpl.
      rewrite filter_app, filter_cons_False, filter_nil, app_nil_r by done.
      by apply (filter_delete_other _ _ i g0).
    + intros g Hg. destruct (running_context rt k g Hc Ho Hg) as [Hal _].
      unfold ctxCanceled. by rewrite (contextChoice_keeps _ _ _ _ _ Hchoice).
  - rewrite Hi in Hkey. simpl in Hkey.
    assert (g_workName g0 ≠ k) as Hne by congruence.
    simpl. split_and!; try done.
    + by rewrite lookup_insert_ne.
    + unfold goroutinesOf. simpl. by apply (filter_delete_other _ _ i g0).
  - destruct Hreap as [|Hw]; [done|].
    apply isWorking_true in Hw as (st & Hst & Hwk).
    apply statusOf_Some in Hst.
    split_and!; try done.
    rewrite workStatuses_set, cleanup_lookup. by rewrite Hst, Hwk.
Qed.

Lemma step_leaves_other_keys_witness :
  reachable rtQueued ∧
  (∀ now wk rt',
     step (EvAddWork now "podB" wk) rtQueued rt' ->
     workStatuses (aws rt') !! "podA" = workStatuses (aws rtQueued) !! "podA" ∧
     lastUndeliveredWork (aws rt') !! "podA" = Some (Some W2) ∧
     goroutinesOf "podA" rt' = goroutinesOf "podA" rtQueued).
Proof.
  split; [exact rtQueued_reachable|].
  intros now wk rt' Hstep.
  destruct (step_leaves_other_keys rtQueued (EvAddWork now "podB" wk) rt'
              "podA" rtQueued_reachable Hstep) as (Hst & Hp & Hg & _).
  - simpl. discriminate.
  - left. discriminate.
  - split; [exact Hst|]. split; [|exact Hg].
    rewrite Hp. vm_compute. reflexivity.
Defined.

End Isolation.

Section Coalescing.
Implicit Types (rt : Runtime) (workName : string) (w : Work).

(** A submission for a working key on top of an earlier one replaces it. *)
Lemma AddWork_on_queued now workName w0 w rt status c cur :
  validateWork (Some w) = None ->
  statusOf rt workName = Some status ->
  working status = true ->
  cancelFn status = Some c ->
  work status = Some cur ->
  AddWork now workName (Some w) (queued workName w0 c rt)
    = Ret None (queued workName w c rt).
Proof.
  intros Hv Hst Hwk Hcf Hcur.
  rewrite (AddWork_busy now workName w (queued workName w0 c rt) status c cur);
    try done.
  - unfold queued. simpl. by rewrite !insert_insert_eq.
  - simpl. by rewrite lookup_insert_eq.
Qed.

Lemma submitAll_on_queued now workName ws w0 w rt status c cur :
  statusOf rt workName = Some status ->
  working status = true ->
  cancelFn status = Some c ->
  work status = Some cur ->
  Forall (λ w, validateWork (Some w) = None) ws ->
  last (w0 :: ws) = Some w ->
  submitAll now workName ws (queued workName w0 c rt) = queued workName w c rt.
Proof.
  intros Hst Hwk Hcf Hcur Hall. revert w0.
  induction Hall as [|w1 ws Hv1 Hall IH]; intros w0 Hlast.
  - simpl in *. by simplify_eq.
  - rewrite last_cons_cons in Hlast. unfold submitAll. simpl.
    rewrite (AddWork_on_queued now workName w0 w1 rt status c cur); try done.
    simpl. by apply IH.
Qed.

(** X3: the submissions that arrive for a key while it is working coalesce.
    In a state the process can reach, after any number of valid submissions
    for a working key the state is the one the last of them alone would have
    left: that work in the pending slot, the key's context canceled, statuses
    and goroutines as before.  When the key's execution then completes, the
    pending slot is emptied and one goroutine is started, for the last work
    and with a newly allocated context; the earlier works are gone. *)
Theorem busy_submissions_coalesce rt now workName ws w :
  reachable rt ->
  isWorking rt workName = true ->
  Forall (λ w, validateWork (Some w) = None) ws ->
  last ws = Some w ->
  ∃ c,
    submitAll now workName ws rt = queued workName w c rt ∧
    AddWork now workName (Some w) rt = Ret None (queued workName w c rt) ∧
    ∀ ReallyCrash now' i g err,
      goroutines rt !! i = Some g ->
      g_workName g = workName ->
      ∃ c' rt',
        runComplete ReallyCrash now' i g err (queued workName w c rt)
          = Ret tt rt' ∧
        lastUndeliveredWork (aws rt') !! workName = None ∧
        contexts rt !! c' = None ∧
        goroutines rt' = delete i (goroutines rt) ++
          [{| g_ctx := c'; g_workName := workName; g_work := Some w;
              g_err := None |}].
Proof.
  intros Hreach Hw Hall Hlast.
  pose proof (reachable_consistent rt Hreach) as Hc.
  apply isWorking_true in Hw as (st & Hst & Hwk).
  destruct (cons_status rt Hc workName st Hst) as [Hpair Hsome].
  destruct (Hsome Hwk) as [[c Hctx] [cur Hcur]].
  assert (cancelFn st = Some c) as Hcf by congruence.
  assert (lastUndeliveredWork (aws rt) !! workName ≠ Some None) as Hpn.
  { intros Hp. by destruct (cons_pending rt Hc workName None Hp). }
  assert (∀ w', validateWork (Some w') = None ->
            AddWork now workName (Some w') rt
              = Ret None (queued workName w' c rt)) as Hfirst.
  { intros w' Hv'. by apply (AddWork_busy now workName w' rt st c cur). }
  assert (validateWork (Some w) = None) as Hv.
  { apply last_Some_elem_of in Hlast.
    by apply (proj1 (Forall_forall _ _) Hall). }
  exists c. split_and!.
  - destruct Hall as [|w0 ws Hv0 Hall]; [done|].
    unfold submitAll. simpl. rewrite (Hfirst w0 Hv0). simpl.
    by apply (submitAll_on_queued now workName ws w0 w rt st c cur).
  - by apply Hfirst.
  - intros rc now' i g err Hi Hname. subst workName.
    destruct (cons_running rt Hc g (list_elem_of_lookup_2 _ _ _ Hi))
      as (st' & Hst' & _ & _ & Hgv).
    destruct (validateWork_valid _ Hgv) as (gw & gf & Hgw & Hgf).
    apply statusOf_Some in Hst.
    edestruct (completeWork_pending now' (g_workName g) gw err
                 (set_goroutines (delete i) (queued (g_workName g) w c rt))
                 st w) as (c' & cf' & h' & Heq & Hcase).
    { exact Hst. }
    { simpl. apply lookup_insert_eq. }
    unfold runComplete. rewrite Hgw, Heq.
    eexists c', _. split; [reflexivity|]. simpl.
    split; [apply lookup_delete_eq|]. split; [|done].
    simpl in Hcase. destruct Hcase as [(_ & -> & _)|(Hn & _)].
    + apply not_elem_of_dom. intros Hin.
      apply (is_fresh (dom (<[c := true]> (contexts rt)))).
      rewrite dom_insert_L in Hin |- *. apply elem_of_union. by right.
    + exfalso. unfold needsNewContext in Hn. rewrite Hctx in Hn. simpl in Hn.
      rewrite ctxCanceled_insert, decide_True in Hn by done. done.
Qed.

Lemma busy_submissions_coalesce_witness :
  reachable rtBusy ∧
  isWorking rtBusy "podA" = true ∧
  Forall (λ w, validateWork (Some w) = None) [W3; W1; W2] ∧
  last [W3; W1; W2] = Some W2 ∧
  ∃ c, submitAll 11 "podA" [W3; W1; W2] rtBusy = queued "podA" W2 c rtBusy.
Proof.
  assert (Forall (λ w, validateWork (Some w) = None) [W3; W1; W2]) as Hall
    by (repeat constructor).
  split; [exact rtBusy_reachable|].
  split; [vm_compute; reflexivity|].
  split; [exact Hall|]. split; [reflexivity|].
  destruct (busy_submissions_coalesce rtBusy 11 "podA" [W3; W1; W2] W2
              rtBusy_reachable) as (c & Hsub & _); try done.
  by exists c.
Defined.

End Coalescing.

Section ContextLifetime.
Implicit Types (rt : Runtime) (workName : string) (w cw : Work).

(** X6: a key whose execution completes with nothing pending is reclaimed by
    the next pass of the reaper, together with the context its status kept:
    the status entry is gone, and the next valid submission for the key
    creates a status with a newly allocated context, whether or not the old
    context was ever canceled. *)
Theorem idle_key_is_reclaimed rt now workName cw workErr status :
  workStatuses (aws rt) !! workName = Some (Some status) ->
  lastUndeliveredWork (aws rt) !! workName = None ->
  ∃ rt1 rt2,
    completeWork now workName (Some cw) workErr rt = Ret tt rt1 ∧
    isWorking rt1 workName = false ∧
    cleanupWorkStatus rt1 = Ret tt rt2 ∧
    workStatuses (aws rt2) !! workName = None ∧
    contexts rt2 = contexts rt ∧
    ∀ now' w,
      validateWork (Some w) = None ->
      ∃ c rt3,
        AddWork now' workName (Some w) rt2 = Ret None rt3 ∧
        contexts rt !! c = None ∧
        statusOf rt3 workName =
          Some {| ctx := Some c; cancelFn := Some c; working := true;
                  work := Some w; startedAt := now' |}.
Proof.
  intros Hst Hp. eexists _, _. split_and!.
  - by apply (completeWork_nothing_pending now workName cw workErr rt status).
  - unfold isWorking, statusOf. simpl. by rewrite lookup_insert_eq.
  - apply cleanupWorkStatus_eq.
  - rewrite workStatuses_set, cleanup_lookup. simpl.
    by rewrite lookup_insert_eq.
  - done.
  - intros now' w Hv.
    set (rt2 := set_workStatuses _ _).
    assert (statusOf rt2 workName = None) as Hnone.
    { unfold rt2. rewrite statusOf_cleanup. unfold statusOf. simpl.
      by rewrite lookup_insert_eq. }
    assert (isWorking rt2 workName = false) as Hidle
      by (unfold isWorking; by rewrite Hnone).
    destruct (AddWork_idle now' workName w rt2 Hv Hidle)
      as (c & cf & h' & Heq & Hcase).
    unfold statusForDispatch in Hcase. rewrite Hnone in Hcase.
    simpl in Hcase. destruct Hcase as [(_ & -> & -> & _)|(Hn & _)]; [|done].
    eexists _, _. split; [exact Heq|]. split.
    + apply fresh_context_unallocated.
    + unfold statusOf. simpl. by rewrite lookup_insert_eq.
Qed.

Lemma idle_key_is_reclaimed_witness :
  workStatuses (aws rtBusy) !! "podA" =
    Some (Some {| ctx := Some 0; cancelFn := Some 0; working := true;
                  work := Some W1; startedAt := 10 |}) ∧
  lastUndeliveredWork (aws rtBusy) !! "podA" = None ∧
  ∃ rt1 rt2,
    completeWork 12 "podA" (Some W1) None rtBusy = Ret tt rt1 ∧
    cleanupWorkStatus rt1 = Ret tt rt2 ∧
    workStatuses (aws rt2) !! "podA" = None.
Proof.
  assert (workStatuses (aws rtBusy) !! "podA" =
    Some (Some {| ctx := Some 0; cancelFn := Some 0; working := true;
                  work := Some W1; startedAt := 10 |})) as Hst
    by (vm_compute; reflexivity).
  assert (lastUndeliveredWork (aws rtBusy) !! "podA" = None) as Hp
    by (vm_compute; reflexivity).
  split; [exact Hst|]. split; [exact Hp|].
  destruct (idle_key_is_reclaimed rtBusy 12 "podA" W1 None _ Hst Hp)
    as (rt1 & rt2 & H1 & _ & H2 & H3 & _).
  by exists rt1, rt2.
Defined.

(** X7: without the reaper in between, the context survives the idle time.
    When a key's execution completes with nothing pending and its context
    was never canceled, the next valid submission for the key starts its
    goroutine with that same context and allocates none. *)
Theorem live_context_is_reused rt now now' workName cw workErr w status c :
  workStatuses (aws rt) !! workName = Some (Some status) ->
  lastUndeliveredWork (aws rt) !! workName = None ->
  ctx status = Some c ->
  ctxCanceled (contexts rt) c = false ->
  validateWork (Some w) = None ->
  ∃ rt1 rt2,
    completeWork now workName (Some cw) workErr rt = Ret tt rt1 ∧
    AddWork now' workName (Some w) rt1 = Ret None rt2 ∧
    contexts rt2 = contexts rt ∧
    goroutines rt2 = goroutines rt ++
      [{| g_ctx := c; g_workName := workName; g_work := Some w;
          g_err := None |}] ∧
    statusOf rt2 workName =
      Some {| ctx := Some c; cancelFn := cancelFn status; working := true;
              work := Some w; startedAt := now' |}.
Proof.
  intros Hst Hp Hctx Hlive Hv.
  rewrite (completeWork_nothing_pending now workName cw workErr rt status
             Hst Hp).
  eexists. set (rt1 := {| aws := _ |}).
  set (st1 := {| ctx := ctx status; cancelFn := cancelFn status;
                 working := false; work := None; startedAt := zeroTime |}).
  assert (statusOf rt1 workName = Some st1) as Hst1.
  { unfold statusOf, rt1. simpl. by rewrite lookup_insert_eq. }
  assert (isWorking rt1 workName = false) as Hidle
    by (unfold isWorking; by rewrite Hst1).
  destruct (AddWork_idle now' workName w rt1 Hv Hidle)
    as (c' & cf & h' & Heq & Hcase).
  unfold statusForDispatch in Hcase. rewrite Hst1 in Hcase.
  unfold needsNewContext in Hcase. simpl in Hcase.
  rewrite Hctx, Hlive in Hcase.
  destruct Hcase as [(Hn & _)|(_ & Hc' & -> & ->)]; [done|].
  simplify_eq. eexists. split; [reflexivity|]. split; [exact Heq|].
  simpl. split_and!; try done.
  unfold statusOf. simpl. by rewrite lookup_insert_eq.
Qed.

Lemma live_context_is_reused_witness :
  workStatuses (aws rtBusy) !! "podA" =
    Some (Some {| ctx := Some 0; cancelFn := Some 0; working := true;
                  work := Some W1; startedAt := 10 |}) ∧
  ∃ rt1 rt2,
    completeWork 12 "podA" (Some W1) None rtBusy = Ret tt rt1 ∧
    AddWork 13 "podA" (Some W2) rt1 = Ret None rt2 ∧
    contexts rt2 = contexts rtBusy ∧
    goroutines rt2 = goroutines rtBusy ++
      [{| g_ctx := 0; g_workName := "podA"; g_work := Some W2;
          g_err := None |}].
Proof.
  assert (workStatuses (aws rtBusy) !! "podA" =
    Some (Some {| ctx := Some 0; cancelFn := Some 0; working := true;
                  work := Some W1; startedAt := 10 |})) as Hst
    by (vm_compute; reflexivity).
  split; [exact Hst|].
  destruct (live_context_is_reused rtBusy 12 13 "podA" W1 None W2 _ 0 Hst)
    as (rt1 & rt2 & H1 & H2 & H3 & H4 & _);
    try (vm_compute; reflexivity).
  by exists rt1, rt2.
Defined.

End ContextLifetime.

Section FailFast.
Implicit Types (rt : Runtime) (workName : string) (w cw : Work).

(** X8: the fail-fast checks.  For a key with no status (no entry, or a nil
    pointer under the key) [resetWorkStatus], [contextForWork] and the
    [completeWork] of a work all end in [general.Fatalf], and [contextForWork]
    does so for a nil work whatever the status; [completeWork] called with a
    nil completed work panics on its dereference before it takes the lock.
    None of them has changed the state by then. *)
Theorem missing_status_is_fatal rt now workName :
  statusOf rt workName = None ->
  (∃ msg, resetWorkStatus workName rt = Fatal msg rt) ∧
  (∀ wk, ∃ msg, contextForWork now workName wk rt = Fatal msg rt) ∧
  (∀ cw workErr,
     ∃ msg, completeWork now workName (Some cw) workErr rt = Fatal msg rt) ∧
  (∀ k, ∃ msg, contextForWork now k None rt = Fatal msg rt) ∧
  (∀ k workErr, ∃ v, completeWork now k None workErr rt = Panic v rt).
Proof.
  intros Hnone.
  assert (∃ msg, resetWorkStatus workName rt = Fatal msg rt) as Hreset.
  { unfold resetWorkStatus, bind, get, Fatalf, statusOf in *.
    destruct (workStatuses (aws rt) !! workName) as [[st|]|]; [done|eauto..]. }
  assert (∀ wk, ∃ msg, contextForWork now workName wk rt = Fatal msg rt)
    as Hctx.
  { intros wk. unfold contextForWork, bind, get, Fatalf, statusOf in *.
    destruct wk as [w|]; [|eauto].
    destruct (workStatuses (aws rt) !! workName) as [[st|]|]; [done|eauto..]. }
  split_and!; try done.
  - intros cw workErr. unfold completeWork. unfold bind at 1. simpl.
    unfold bind at 1. simpl.
    destruct (lastUndeliveredWork (aws rt) !! workName) as [wk|]; [|done].
    unfold bind at 1. destruct (Hctx wk) as [msg ->]. eauto.
  - intros k. unfold contextForWork, bind, get, Fatalf. eauto.
  - intros k workErr. unfold completeWork, bind, deref, panic. eauto.
Qed.

Lemma missing_status_is_fatal_witness :
  statusOf (NewRuntime "aws") "podA" = None ∧
  ∃ msg,
    completeWork 1 "podA" (Some W1) None (NewRuntime "aws")
      = Fatal msg (NewRuntime "aws").
Proof.
  split; [reflexivity|].
  destruct (missing_status_is_fatal (NewRuntime "aws") 1 "podA" eq_refl)
    as (_ & _ & Hcw & _).
  apply Hcw.
Defined.

End FailFast.

(** ** CPU assignments *)

Section Integers.

Lemma wrapInt_isInt z : isInt (wrapInt z).
Proof.
  unfold isInt, wrapInt.
  pose proof (Z.mod_pos_bound (z + 2 ^ 63) (2 ^ 64)) as Hb. lia.
Qed.

Lemma wrapInt_id z : isInt z -> wrapInt z = z.
Proof.
  unfold isInt, wrapInt. intros Hz.
  rewrite Z.mod_small by lia. lia.
Qed.

Lemma wrapInt_add_l a b : wrapInt (wrapInt a + b) = wrapInt (a + b).
Proof.
  unfold wrapInt. f_equal.
  replace ((a + 2 ^ 63) mod 2 ^ 64 - 2 ^ 63 + b + 2 ^ 63)%Z
    with ((a + 2 ^ 63) mod 2 ^ 64 + b)%Z by lia.
  rewrite Zplus_mod_idemp_l. f_equal. lia.
Qed.

Lemma toUint64_isUint64 i : isUint64 (toUint64 i).
Proof. unfold isUint64, toUint64. apply Z.mod_pos_bound. lia. Qed.

Lemma toUint64_toInt k : isUint64 k -> toUint64 (toInt k) = k.
Proof.
  unfold isUint64, toUint64, toInt, wrapInt. intros Hk.
  destruct (decide (k < 2 ^ 63)%Z) as [Hlt|Hge].
  - rewrite (Z.mod_small (k + 2 ^ 63)) by lia.
    replace (k + 2 ^ 63 - 2 ^ 63)%Z with k by lia.
    apply Z.mod_small. lia.
  - replace (k + 2 ^ 63)%Z with (k - 2 ^ 63 + 1 * 2 ^ 64)%Z by lia.
    rewrite Z_mod_plus_full, (Z.mod_small (k - 2 ^ 63)) by lia.
    replace (k - 2 ^ 63 - 2 ^ 63)%Z with (k + (-1) * 2 ^ 64)%Z by lia.
    rewrite Z_mod_plus_full. apply Z.mod_small. lia.
Qed.

Lemma toInt_toUint64 i : isInt i -> toInt (toUint64 i) = i.
Proof.
  unfold isInt, toUint64, toInt, wrapInt. intros Hi.
  rewrite Zplus_mod_idemp_l, Z.mod_small by lia. lia.
Qed.

Lemma toInt_inj k1 k2 :
  isUint64 k1 -> isUint64 k2 -> toInt k1 = toInt k2 -> k1 = k2.
Proof.
  intros H1 H2 Heq.
  by rewrite <- (toUint64_toInt k1 H1), <- (toUint64_toInt k2 H2), Heq.
Qed.

Lemma toUint64_inj i1 i2 :
  isInt i1 -> isInt i2 -> toUint64 i1 = toUint64 i2 -> i1 = i2.
Proof.
  intros H1 H2 Heq.
  by rewrite <- (toInt_toUint64 i1 H1), <- (toInt_toUint64 i2 H2), Heq.
Qed.

Lemma sumZ_perm l1 l2 : l1 ≡ₚ l2 -> sumZ l1 = sumZ l2.
Proof.
  induction 1 as [|x l1 l2 _ IH|x y l|l1 l2 l3 _ IH1 _ IH2]; simpl.
  - done.
  - by rewrite IH.
  - lia.
  - congruence.
Qed.

End Integers.

Section InsertLoops.
Context {K V K' V' : Type} `{Countable K'}.
Implicit Types (l : list (K * V)) (acc : gmap K' V').

(** A loop that stores [fv v] under [fk k] for each entry visited, when no two
    entries are stored under the same key. *)
Lemma insert_loop_lookup (fk : K -> K') (fv : V -> V') l acc :
  NoDup (fk <$> l.*1) ->
  let res := foldl (λ res kv, <[fk kv.1 := fv kv.2]> res) acc l in
  (∀ k v, (k, v) ∈ l -> res !! fk k = Some (fv v)) ∧
  (∀ j, (∀ k v, (k, v) ∈ l -> fk k ≠ j) -> res !! j = acc !! j).
Proof.
  revert acc. induction l as [|[k0 v0] l IH]; intros acc Hnd; simpl.
  - split; [|done]. intros k v Hin. by apply elem_of_nil in Hin.
  - simpl in Hnd. apply NoDup_cons in Hnd as [Hnotin Hnd].
    destruct (IH (<[fk k0 := fv v0]> acc) Hnd) as [IHin IHout].
    split.
    + intros k v Hin. apply elem_of_cons in Hin as [Heq|Hin].
      * simplify_eq. rewrite IHout; [by rewrite lookup_insert_eq|].
        intros k v Hin Heq. apply Hnotin. rewrite <- Heq.
        apply list_elem_of_fmap. exists k. split; [done|].
        apply list_elem_of_fmap. by exists (k, v).
      * by apply IHin.
    + intros j Hj. rewrite IHout.
      * apply lookup_insert_ne. apply (Hj k0 v0). by left.
      * intros k v Hin. apply (Hj k v). by right.
Qed.

End InsertLoops.

Section CPUAssignment.
Context {CPUSet : Type}.
Variable MustParse : string -> option CPUSet.
Variable cpusetString : CPUSet -> string.
Variable Size : CPUSet -> Z.
Variable Clone : CPUSet -> CPUSet.

Lemma order_elem {K V : Type} `{Countable K} (m : gmap K V) order k v :
  order ≡ₚ map_to_list m -> (k, v) ∈ order <-> m !! k = Some v.
Proof. intros Hp. rewrite Hp. apply elem_of_map_to_list. Qed.

Lemma order_NoDup {K V K' : Type} `{Countable K} (fk : K -> K')
    (m : gmap K V) order :
  order ≡ₚ map_to_list m ->
  (∀ k1 k2, is_Some (m !! k1) -> is_Some (m !! k2) ->
            fk k1 = fk k2 -> k1 = k2) ->
  NoDup (fk <$> order.*1).
Proof.
  intros Hp Hinj. apply NoDup_fmap_2_strong.
  - intros k1 k2 Hk1 Hk2. apply Hinj.
    + apply list_elem_of_fmap in Hk1 as ([k v] & -> & Hin).
      apply (order_elem m order) in Hin; [|done]. by exists v.
    + apply list_elem_of_fmap in Hk2 as ([k v] & -> & Hin).
      apply (order_elem m order) in Hin; [|done]. by exists v.
  - rewrite Hp. apply NoDup_fst_map_to_list.
Qed.

Lemma countLoop_sum order acc :
  countLoop Size order (wrapInt acc)
    = wrapInt (acc + sumZ ((Size ∘ snd) <$> order)).
Proof.
  revert acc. induction order as [|kv order IH]; intros acc; simpl.
  - f_equal. unfold sumZ. simpl. lia.
  - rewrite wrapInt_add_l, IH. f_equal. unfold sumZ, compose. simpl.
    by rewrite <- Z.add_assoc.
Qed.

(** X9: [CountCPUAssignmentCPUs] returns the sum of the sizes of the
    assignment's CPU sets as a 64-bit [int] holds it, whatever the order in
    which the range visits the entries, exactly the sum when that fits an
    [int], and 0 for a nil or empty assignment; adding a NUMA node adds the
    size of its set. *)
Theorem CountCPUAssignmentCPUs_is_sum
    (assignment : option (gmap Z CPUSet)) order :
  order ≡ₚ rangeOver assignment ->
  countLoop Size order 0 = CountCPUAssignmentCPUs Size assignment ∧
  CountCPUAssignmentCPUs Size assignment
    = wrapInt (sumZ ((Size ∘ snd) <$> rangeOver assignment)) ∧
  (isInt (sumZ ((Size ∘ snd) <$> rangeOver assignment)) ->
   CountCPUAssignmentCPUs Size assignment
     = sumZ ((Size ∘ snd) <$> rangeOver assignment)) ∧
  (rangeOver assignment = [] -> CountCPUAssignmentCPUs Size assignment = 0%Z) ∧
  (∀ m numaNode cset,
     assignment = Some m -> m !! numaNode = None ->
     CountCPUAssignmentCPUs Size (Some (<[numaNode := cset]> m))
       = wrapInt (CountCPUAssignmentCPUs Size assignment + Size cset)).
Proof.
  intros Hp.
  assert (∀ l, countLoop Size l 0
               = wrapInt (sumZ ((Size ∘ snd) <$> l))) as Hsum.
  { intros l. change 0%Z with (wrapInt 0) at 1. by rewrite countLoop_sum. }
  unfold CountCPUAssignmentCPUs. split_and!.
  - rewrite !Hsum. f_equal. apply sumZ_perm. by rewrite Hp.
  - apply Hsum.
  - intros Hfit. rewrite Hsum. by apply wrapInt_id.
  - intros ->. done.
  - intros m numaNode cset -> Hnone. simpl. rewrite !Hsum.
    rewrite wrapInt_add_l. f_equal.
    rewrite (sumZ_perm _
               ((Size ∘ snd) <$> ((numaNode, cset) :: map_to_list m))).
    + rewrite fmap_cons. unfold sumZ at 1. simpl. apply Z.add_comm.
    + by rewrite map_to_list_insert.
Qed.

(** X12: [DeepcopyCPUAssignment] and [GetQuantityMap] work entry by entry,
    whatever the order of the range: the copy of a non-nil assignment has
    exactly its NUMA nodes, each with the clone of its set, and nil is copied
    to nil; the quantity map has exactly the names of the CPUSet map, each with
    the size of its set, and is empty, not nil, for a nil map. *)
Theorem copies_are_entrywise :
  (∀ (m : gmap Z CPUSet) order,
     order ≡ₚ map_to_list m ->
     deepcopyLoop Clone order ∅ = Clone <$> m ∧
     DeepcopyCPUAssignment Clone (Some m) = Some (Clone <$> m)) ∧
  DeepcopyCPUAssignment Clone None = None ∧
  (∀ (m : gmap string CPUSet) order,
     order ≡ₚ map_to_list m ->
     quantityLoop Size order ∅ = Size <$> m ∧
     GetQuantityMap Size (Some m) = Size <$> m) ∧
  GetQuantityMap Size None = ∅.
Proof.
  assert (∀ (m : gmap Z CPUSet) order,
            order ≡ₚ map_to_list m ->
            deepcopyLoop Clone order ∅ = Clone <$> m) as Hcopy.
  { intros m order Hp. apply map_eq. intros j. rewrite lookup_fmap.
    destruct (insert_loop_lookup id Clone order ∅) as [Hin Hout].
    { rewrite list_fmap_id. rewrite Hp. apply NoDup_fst_map_to_list. }
    destruct (m !! j) as [v|] eqn:Hj; simpl.
    - apply (Hin j v). by apply (order_elem m).
    - etrans; [apply (Hout j)|apply lookup_empty].
      intros k v Hkv Hk. unfold id in Hk. subst k.
      apply (order_elem m) in Hkv; [|done]. congruence. }
  assert (∀ (m : gmap string CPUSet) order,
            order ≡ₚ map_to_list m ->
            quantityLoop Size order ∅ = Size <$> m) as Hquant.
  { intros m order Hp. apply map_eq. intros j. rewrite lookup_fmap.
    destruct (insert_loop_lookup id Size order ∅) as [Hin Hout].
    { rewrite list_fmap_id. rewrite Hp. apply NoDup_fst_map_to_list. }
    destruct (m !! j) as [v|] eqn:Hj; simpl.
    - apply (Hin j v). by apply (order_elem m).
    - etrans; [apply (Hout j)|apply lookup_empty].
      intros k v Hkv Hk. unfold id in Hk. subst k.
      apply (order_elem m) in Hkv; [|done]. congruence. }
  split_and!; try done.
  - intros m order Hp. split; [by apply Hcopy|].
    unfold DeepcopyCPUAssignment. f_equal. by apply Hcopy.
  - intros m order Hp. split; [by apply Hquant|].
    unfold GetQuantityMap. by apply Hquant.
Qed.

End CPUAssignment.

Lemma CountCPUAssignmentCPUs_is_sum_witness :
  [(1%Z, [2]); (0%Z, [0; 1])] ≡ₚ rangeOver (Some sampleCPUSets) ∧
  countLoop sampleSize [(1%Z, [2]); (0%Z, [0; 1])] 0 = 3%Z ∧
  CountCPUAssignmentCPUs sampleSize (Some sampleCPUSets) = 3%Z.
Proof.
  assert ([(1%Z, [2]); (0%Z, [0; 1])] ≡ₚ rangeOver (Some sampleCPUSets))
    as Hp.
  { unfold sampleCPUSets. simpl.
    rewrite map_to_list_insert by (vm_compute; reflexivity).
    rewrite map_to_list_insert by (vm_compute; reflexivity).
    rewrite map_to_list_empty. apply Permutation_swap. }
  split; [exact Hp|].
  destruct (CountCPUAssignmentCPUs_is_sum sampleSize (Some sampleCPUSets)
              _ Hp) as (Horder & _ & _).
  rewrite Horder. split; vm_compute; reflexivity.
Defined.

Section CPUAssignmentFormats.
Context {CPUSet : Type}.
Variable MustParse : string -> option CPUSet.
Variable cpusetString : CPUSet -> string.

Lemma transformLoop_None order : transformLoop MustParse order None = None.
Proof. induction order as [|kv order IH]; [done|exact IH]. Qed.

Lemma transformLoop_panics order res k v :
  (k, v) ∈ order -> MustParse v = None ->
  transformLoop MustParse order res = None.
Proof.
  intros Hin Hbad. revert res.
  induction order as [|kv order IH]; intros res.
  - by apply elem_of_nil in Hin.
  - apply elem_of_cons in Hin as [<-|Hin].
    + unfold transformLoop. simpl. rewrite Hbad.
      destruct res; apply transformLoop_None.
    + unfold transformLoop. simpl. by apply IH.
Qed.

Lemma transformLoop_lookup order acc :
  (∀ k v, (k, v) ∈ order -> is_Some (MustParse v)) ->
  NoDup (toInt <$> order.*1) ->
  ∃ res,
    transformLoop MustParse order (Some acc) = Some res ∧
    (∀ k v, (k, v) ∈ order -> res !! toInt k = MustParse v) ∧
    (∀ j, (∀ k v, (k, v) ∈ order -> toInt k ≠ j) -> res !! j = acc !! j).
Proof.
  revert acc. induction order as [|[k0 v0] order IH]; intros acc Hok Hnd.
  - exists acc. split; [done|]. split; [|done].
    intros k v Hin. by apply elem_of_nil in Hin.
  - simpl in Hnd. apply NoDup_cons in Hnd as [Hnotin Hnd].
    destruct (Hok k0 v0) as [c0 Hc0]; [by left|].
    destruct (IH (<[toInt k0 := c0]> acc)) as (res & Heq & Hin & Hout);
      [intros k v Hkv; apply (Hok k v); by right|done|].
    exists res. split.
    { unfold transformLoop in *. simpl. by rewrite Hc0. }
    split.
    + intros k v Hkv. apply elem_of_cons in Hkv as [Heq'|Hkv].
      * simplify_eq. rewrite Hout; [by rewrite lookup_insert_eq|].
        intros k v Hkv Hk. apply Hnotin. rewrite <- Hk.
        apply list_elem_of_fmap. exists k. split; [done|].
        apply list_elem_of_fmap. by exists (k, v).
      * by apply Hin.
    + intros j Hj. rewrite Hout.
      * apply lookup_insert_ne. apply (Hj k0 v0). by left.
      * intros k v Hkv. apply (Hj k v). by right.
Qed.

(** X11: [TransformCPUAssignmentFormat] on an assignment with [uint64] keys,
    whatever the order of the range.  It panics exactly when one of the
    strings is not a CPU set.  Otherwise it returns a map, never nil, that
    holds the parsed set of each entry under the key converted to [int] (a key
    from 2^63 on becomes negative) and nothing else; no two entries fall on one
    key.  For a nil assignment it returns an empty map. *)
Theorem TransformCPUAssignmentFormat_entries (m : gmap Z string) order :
  (∀ k v, m !! k = Some v -> isUint64 k) ->
  order ≡ₚ map_to_list m ->
  ((∃ k v, m !! k = Some v ∧ MustParse v = None) ->
   transformLoop MustParse order (Some ∅) = None) ∧
  ((∀ k v, m !! k = Some v -> is_Some (MustParse v)) ->
   ∃ res,
     transformLoop MustParse order (Some ∅) = Some res ∧
     TransformCPUAssignmentFormat MustParse (Some m) = Some res ∧
     (∀ k v, m !! k = Some v ->
             res !! toInt k = MustParse v ∧
             (k < 2 ^ 63 -> toInt k = k)%Z ∧
             (2 ^ 63 ≤ k -> toInt k = k - 2 ^ 64)%Z) ∧
     (∀ j, is_Some (res !! j) -> ∃ k, is_Some (m !! k) ∧ toInt k = j)) ∧
  TransformCPUAssignmentFormat MustParse None = Some ∅.
Proof.
  intros Hkeys Hp. split_and!; [| |done].
  - intros (k & v & Hkv & Hbad).
    apply (transformLoop_panics order _ k v); [|done].
    by apply (order_elem m).
  - intros Hok.
    assert (∀ l, l ≡ₚ map_to_list m ->
              ∃ res,
                transformLoop MustParse l (Some ∅) = Some res ∧
                (∀ k v, m !! k = Some v -> res !! toInt k = MustParse v) ∧
                (∀ j, is_Some (res !! j) ->
                      ∃ k, is_Some (m !! k) ∧ toInt k = j)) as Hany.
    { intros l Hl.
      destruct (transformLoop_lookup l ∅) as (res & Heq & Hin & Hout).
      - intros k v Hkv. apply (Hok k v). by apply (order_elem m l).
      - apply (order_NoDup toInt m l Hl).
        intros k1 k2 [v1 H1] [v2 H2]. apply toInt_inj; eauto.
      - exists res. split; [done|]. split.
        + intros k v Hkv. apply Hin. by apply (order_elem m l).
        + intros j Hj.
          destruct (decide (j ∈ (toInt <$> l.*1))) as [Hin'|Hnot].
          * apply list_elem_of_fmap in Hin' as (k & -> & Hk).
            apply list_elem_of_fmap in Hk as ([k' v] & -> & Hkv).
            exists k'. split; [|done]. exists v. by apply (order_elem m l).
          * rewrite Hout in Hj; [by destruct Hj|].
            intros k v Hkv Hk. apply Hnot. rewrite <- Hk.
            apply list_elem_of_fmap. exists k. split; [done|].
            apply list_elem_of_fmap. by exists (k, v). }
    destruct (Hany order Hp) as (res & Heq & Hin & Hout).
    destruct (Hany (map_to_list m) (reflexivity _))
      as (res' & Heq' & Hin' & Hout').
    assert (res' = res) as ->.
    { apply map_eq. intros j.
      destruct (res !! j) as [c|] eqn:Hres.
      - destruct (Hout j) as (k & [v Hkv] & <-); [eauto|].
        by rewrite (Hin' k v Hkv), <- (Hin k v Hkv).
      - destruct (res' !! j) as [c|] eqn:Hres'; [|done].
        destruct (Hout' j) as (k & [v Hkv] & <-); [eauto|].
        by rewrite <- Hres, (Hin k v Hkv), <- (Hin' k v Hkv). }
    exists res. split_and!; try done.
    intros k v Hkv. split; [by apply Hin|].
    pose proof (Hkeys k v Hkv) as Hk. unfold isUint64 in Hk.
    unfold toInt, wrapInt. split; intros Hlt.
    + rewrite Z.mod_small by lia. lia.
    + replace (k + 2 ^ 63)%Z with (k - 2 ^ 63 + 1 * 2 ^ 64)%Z by lia.
      rewrite Z_mod_plus_full, Z.mod_small by lia. lia.
Qed.

Lemma parseLoop_lookup (m : gmap Z CPUSet) order :
  (∀ i c, m !! i = Some c -> isInt i) ->
  order ≡ₚ map_to_list m ->
  (∀ i c, m !! i = Some c ->
          parseLoop cpusetString order ∅ !! toUint64 i
            = Some (cpusetString c)) ∧
  (∀ k s, parseLoop cpusetString order ∅ !! k = Some s ->
          ∃ i c, m !! i = Some c ∧ toUint64 i = k ∧ s = cpusetString c).
Proof.
  intros Hkeys Hp.
  destruct (insert_loop_lookup toUint64 cpusetString order ∅)
    as [Hin Hout].
  { apply (order_NoDup toUint64 m order Hp).
    intros i1 i2 [c1 H1] [c2 H2]. apply toUint64_inj; eauto. }
  split.
  - intros i c Hic. apply (Hin i c). by apply (order_elem m order).
  - intros k s Hks.
    destruct (decide (k ∈ (toUint64 <$> order.*1))) as [Hin'|Hnot].
    + apply list_elem_of_fmap in Hin' as (i & -> & Hi).
      apply list_elem_of_fmap in Hi as ([i' c] & -> & Hic).
      exists i', c. split; [by apply (order_elem m order)|].
      split; [done|].
      pose proof (Hin i' c Hic) as Heq. simpl in *.
      unfold parseLoop in Hks. congruence.
    + exfalso. unfold parseLoop in Hks. rewrite Hout in Hks; [done|].
      intros i c Hic Hk. apply Hnot. rewrite <- Hk.
      apply list_elem_of_fmap. exists i. split; [done|].
      apply list_elem_of_fmap. by exists (i, c).
Qed.

(** X10: an assignment survives the way through the string format and back.
    For a non-nil assignment whose NUMA nodes are [int]s and whose sets are
    parsed back from their strings, [TransformCPUAssignmentFormat] of
    [ParseCPUAssignmentFormat] returns the assignment itself, negative nodes
    included, whatever the orders of the two ranges.  A nil assignment comes
    back as an empty map, not as nil. *)
Theorem Parse_then_Transform_is_identity (m : gmap Z CPUSet) order1 order2 :
  (∀ i c, m !! i = Some c ->
          isInt i ∧ MustParse (cpusetString c) = Some c) ->
  order1 ≡ₚ map_to_list m ->
  order2 ≡ₚ map_to_list (parseLoop cpusetString order1 ∅) ->
  transformLoop MustParse order2 (Some ∅) = Some m ∧
  TransformCPUAssignmentFormat MustParse
    (ParseCPUAssignmentFormat cpusetString (Some m)) = Some m ∧
  TransformCPUAssignmentFormat MustParse
    (ParseCPUAssignmentFormat cpusetString None) = Some ∅.
Proof.
  intros Hm Hp1 Hp2.
  assert (∀ l1 l2,
            l1 ≡ₚ map_to_list m ->
            l2 ≡ₚ map_to_list (parseLoop cpusetString l1 ∅) ->
            transformLoop MustParse l2 (Some ∅) = Some m) as Hany.
  { intros l1 l2 Hl1 Hl2.
    destruct (parseLoop_lookup m l1) as [Pin Pout];
      [intros i c Hic; by apply (Hm i c)|done|].
    set (p := parseLoop cpusetString l1 ∅) in *.
    destruct (TransformCPUAssignmentFormat_entries p l2) as (_ & Hok & _).
    { intros k s Hks. destruct (Pout k s Hks) as (i & c & _ & <- & _).
      apply toUint64_isUint64. }
    { done. }
    destruct Hok as (res & Heq & _ & Hin & Hout).
    { intros k s Hks. destruct (Pout k s Hks) as (i & c & Hic & _ & ->).
      destruct (Hm i c Hic) as [_ ->]. eauto. }
    rewrite Heq. f_equal. apply map_eq. intros i.
    destruct (m !! i) as [c|] eqn:Hic.
    - destruct (Hm i c Hic) as [Hi Hrt].
      destruct (Hin (toUint64 i) (cpusetString c) (Pin i c Hic)) as [Hres _].
      by rewrite (toInt_toUint64 i Hi), Hrt in Hres.
    - destruct (res !! i) as [c|] eqn:Hres; [|done].
      destruct (Hout i) as (k & [s Hks] & Hk); [eauto|].
      destruct (Pout k s Hks) as (i' & c' & Hic' & <- & _).
      destruct (Hm i' c' Hic') as [Hi' _].
      rewrite (toInt_toUint64 i' Hi') in Hk. congruence. }
  split_and!.
  - by apply (Hany order1 order2).
  - unfold TransformCPUAssignmentFormat, ParseCPUAssignmentFormat. simpl.
    by apply (Hany (map_to_list m) _).
  - done.
Qed.

End CPUAssignmentFormats.

Section Masks.

Lemma MaskToUInt64Array_fmap maskBits :
  MaskToUInt64Array maskBits = toUint64 <$> maskBits.
Proof.
  unfold MaskToUInt64Array.
  enough (∀ acc,
    foldl (λ out numaNode, out ++ [toUint64 numaNode]) acc maskBits
      = acc ++ (toUint64 <$> maskBits)) as Hgen by apply (Hgen []).
  induction maskBits as [|b l IH]; intros acc; simpl.
  - by rewrite app_nil_r.
  - rewrite IH, <- app_assoc. done.
Qed.

(** X13: [MaskToUInt64Array] returns the bits of the mask as they are, in
    the same order and as many, when they are bit positions (not negative);
    a negative [int] would come out as a number from 2^63 on. *)
Theorem MaskToUInt64Array_keeps_bits maskBits :
  Forall (λ b, 0 ≤ b < 2 ^ 63)%Z maskBits ->
  MaskToUInt64Array maskBits = maskBits.
Proof.
  intros Hall. rewrite MaskToUInt64Array_fmap.
  induction Hall as [|b l Hb _ IH]; [done|].
  rewrite fmap_cons, IH. f_equal.
  unfold toUint64. apply Z.mod_small. lia.
Qed.

Lemma MaskToUInt64Array_keeps_bits_witness :
  Forall (λ b, 0 ≤ b < 2 ^ 63)%Z [0; 1; 3]%Z ∧
  MaskToUInt64Array [0; 1; 3]%Z = [0; 1; 3]%Z.
Proof.
  assert (Forall (λ b, 0 ≤ b < 2 ^ 63)%Z [0; 1; 3]%Z) as Hall
    by (repeat constructor; lia).
  split; [exact Hall|].
  exact (MaskToUInt64Array_keeps_bits _ Hall).
Defined.

End Masks.

Section CPUAssignmentSamples.

Lemma sampleAssignment_keys k v :
  sampleAssignment !! k = Some v -> isUint64 k.
Proof.
  unfold sampleAssignment, isUint64. intros Hkv.
  apply lookup_insert_Some in Hkv as [[<- _]|[_ Hkv]]; [lia|].
  apply lookup_insert_Some in Hkv as [[<- _]|[_ Hkv]]; [lia|].
  by rewrite lookup_empty in Hkv.
Qed.

Lemma sampleAssignment_parses k v :
  sampleAssignment !! k = Some v -> is_Some (sampleParse v).
Proof.
  unfold sampleAssignment. intros Hkv.
  apply lookup_insert_Some in Hkv as [[_ <-]|[_ Hkv]]; [by eexists|].
  apply lookup_insert_Some in Hkv as [[_ <-]|[_ Hkv]]; [by eexists|].
  by rewrite lookup_empty in Hkv.
Qed.

Lemma TransformCPUAssignmentFormat_entries_witness :
  (∀ k v, sampleAssignment !! k = Some v -> isUint64 k) ∧
  map_to_list sampleAssignment ≡ₚ map_to_list sampleAssignment ∧
  ∃ res,
    TransformCPUAssignmentFormat sampleParse (Some sampleAssignment)
      = Some res ∧
    res !! 0%Z = Some [0; 1] ∧
    res !! (-1)%Z = Some [2].
Proof.
  split; [exact sampleAssignment_keys|]. split; [reflexivity|].
  destruct (TransformCPUAssignmentFormat_entries sampleParse sampleAssignment
              (map_to_list sampleAssignment) sampleAssignment_keys
              (reflexivity _)) as (_ & Hok & _).
  destruct (Hok sampleAssignment_parses) as (res & _ & Heq & Hin & _).
  exists res. split; [exact Heq|]. split.
  - destruct (Hin 0%Z "0-1") as [H0 _]; [vm_compute; reflexivity|].
    exact H0.
  - destruct (Hin (2 ^ 64 - 1)%Z "2") as [H1 _]; [vm_compute; reflexivity|].
    exact H1.
Defined.

Lemma sampleCPUSets_roundtrip i c :
  sampleCPUSets !! i = Some c ->
  isInt i ∧ sampleParse (sampleString c) = Some c.
Proof.
  unfold sampleCPUSets, isInt. intros Hic.
  apply lookup_insert_Some in Hic as [[<- <-]|[_ Hic]]; [split; [lia|done]|].
  apply lookup_insert_Some in Hic as [[<- <-]|[_ Hic]]; [split; [lia|done]|].
  by rewrite lookup_empty in Hic.
Qed.

Lemma Parse_then_Transform_is_identity_witness :
  (∀ i c, sampleCPUSets !! i = Some c ->
          isInt i ∧ sampleParse (sampleString c) = Some c) ∧
  TransformCPUAssignmentFormat sampleParse
    (ParseCPUAssignmentFormat sampleString (Some sampleCPUSets))
    = Some sampleCPUSets.
Proof.
  split; [exact sampleCPUSets_roundtrip|].
  destruct (Parse_then_Transform_is_identity sampleParse sampleString
              sampleCPUSets (map_to_list sampleCPUSets)
              (map_to_list (parseLoop sampleString
                              (map_to_list sampleCPUSets) ∅))
              sampleCPUSets_roundtrip (reflexivity _) (reflexivity _))
    as (_ & Hrt & _).
  exact Hrt.
Defined.

End CPUAssignmentSamples.
